(** * An in-memory cache with TTL, bounded size and an HTTP caching interceptor

    Shallow embedding of [src/app/services/cache.service.ts] and
    [src/app/interceptors/caching.interceptor.ts].

    Conventions of the embedding:
    - [Date.now()] is an explicit argument [now : Z] (milliseconds) of every
      method that reads the clock; each method reads it once.
    - a TypeScript method that mutates [this] takes the service and returns
      the new service together with the method's result.
    - the ES2015 [Map<string, X>] is an insertion-ordered association list:
      iteration order is observable (the eviction scan keeps the first of
      several equally old entries), so a finite map without order would lose
      behaviour.
    - an [Observable] is one subscription run to its end: the values it
      delivers, each with the clock reading at its delivery, and its
      completion or error. *)

From Stdlib Require Import ZArith List String Ascii Bool Lia.
From Stdlib Require Import Permutation Sorted OrderedTypeEx.
Import ListNotations.

Set Implicit Arguments.

(* ------------------------------------------------------------------ *)
(** ** The ES2015 [Map] with string keys *)

Module JsMap.

Definition t (X : Type) := list (string * X).

Section Ops.
  Context {X : Type}.

Definition empty : t X := [].

(** [Map.prototype.get]: [None] stands for [undefined]. *)
Fixpoint get (k : string) (m : t X) : option X :=
  match m with
  | [] => None
  | (k', x) :: m' => if String.eqb k' k then Some x else get k m'
  end.

Definition has (k : string) (m : t X) : bool :=
  match get k m with Some _ => true | None => false end.

(** [Map.prototype.set]: an existing key keeps its position and gets the
    new value, a new key goes to the end of the iteration order. *)
Fixpoint set (k : string) (x : X) (m : t X) : t X :=
  match m with
  | [] => [(k, x)]
  | (k', x') :: m' =>
      if String.eqb k' k then (k, x) :: m' else (k', x') :: set k x m'
  end.

(** [Map.prototype.delete], the map it leaves; the boolean it returns is
    [has k m]. *)
Definition delete (k : string) (m : t X) : t X :=
  filter (fun p => negb (String.eqb (fst p) k)) m.

Definition size (m : t X) : nat := List.length m.

Definition keys (m : t X) : list string := map fst m.

(** Keys of a [Map] are unique. *)
Definition wf (m : t X) : Prop := NoDup (keys m).

End Ops.

End JsMap.

(* ------------------------------------------------------------------ *)
(** ** [CacheService] *)

Module CacheService.

Section Service.
  (** The payload type: [CacheEntry<any>] in the source. *)
  Context {V : Type}.

Record CacheEntry : Type := mkEntry {
  value : V;
  expiry : Z;
  createdAt : Z
}.

(** [getStats()] also reports [hitRate], a floating-point quotient
    rounded to two decimals; it is derived from [hits] and [misses] and
    is left out of the record. *)
Record CacheStats : Type := mkStats {
  hits : nat;
  misses : nat;
  size : nat
}.

(** [ttl?: number] and [maxSize?: number]; [None] is an absent field.
    The second field is declared by the source but never read. *)
Record CacheOptions : Type := mkOptions {
  ttl : option Z;
  optMaxSize : option nat
}.

(** The private [stats] object. *)
Record Counters : Type := mkCounters {
  stats_hits : nat;
  stats_misses : nat
}.

Record t : Type := mkService {
  cache : JsMap.t CacheEntry;
  stats : Counters
}.

Definition defaultTTL : Z := 10 * 60 * 1000.
Definition maxSize : nat := 100.

(** The service as constructed. *)
Definition create : t :=
  {| cache := JsMap.empty; stats := {| stats_hits := 0; stats_misses := 0 |} |}.

Definition with_cache (s : t) (m : JsMap.t CacheEntry) : t :=
  {| cache := m; stats := stats s |}.

Definition miss (s : t) : t :=
  {| cache := cache s;
     stats := {| stats_hits := stats_hits (stats s);
                 stats_misses := S (stats_misses (stats s)) |} |}.

Definition hit (s : t) : t :=
  {| cache := cache s;
     stats := {| stats_hits := S (stats_hits (stats s));
                 stats_misses := stats_misses (stats s) |} |}.

(** [Date.now() > entry.expiry] *)
Definition isExpired (now : Z) (entry : CacheEntry) : bool :=
  (expiry entry <? now)%Z.

(** [get<T>(key): T | null]; [None] is [null]. An entry is an object and
    so always truthy: [!entry] is the test for [undefined]. *)
Definition get (now : Z) (key : string) (s : t) : t * option V :=
  match JsMap.get key (cache s) with
  | None => (miss s, None)
  | Some entry =>
      if isExpired now entry
      then (miss (with_cache s (JsMap.delete key (cache s))), None)
      else (hit s, Some (value entry))
  end.

(** The loop of [evictOldestEntry]: [oldestTime = None] is [Infinity],
    which every creation time is below. *)
Definition older (created : Z) (oldestTime : option Z) : bool :=
  match oldestTime with
  | None => true
  | Some t0 => (created <? t0)%Z
  end.

Fixpoint oldest_scan (it : list (string * CacheEntry))
    (oldestKey : option string) (oldestTime : option Z) : option string :=
  match it with
  | [] => oldestKey
  | (key, entry) :: it' =>
      if older (createdAt entry) oldestTime
      then oldest_scan it' (Some key) (Some (createdAt entry))
      else oldest_scan it' oldestKey oldestTime
  end.

(** [if (oldestKey)] is a truthiness test on [string | null]: it is
    false for [null] and for the empty string. *)
Definition truthy_key (k : option string) : bool :=
  match k with
  | None => false
  | Some s => negb (String.eqb s EmptyString)
  end.

Definition evictOldestEntry (s : t) : t :=
  match oldest_scan (cache s) None None with
  | Some k =>
      if truthy_key (Some k)
      then with_cache s (JsMap.delete k (cache s))
      else s
  | None => s
  end.

(** [options?.ttl || this.defaultTTL]: [||] takes the right operand when
    the left one is [undefined] or falsy, and the only falsy integer is
    [0]. *)
Definition ttl_or_default (options : option CacheOptions) : Z :=
  match options with
  | None => defaultTTL
  | Some o =>
      match ttl o with
      | None => defaultTTL
      | Some n => if (n =? 0)%Z then defaultTTL else n
      end
  end.

Definition set (now : Z) (key : string) (v : V)
    (options : option CacheOptions) (s : t) : t * bool :=
  let ttl := ttl_or_default options in
  let entry := {| value := v; expiry := (now + ttl)%Z; createdAt := now |} in
  let s1 :=
    if (maxSize <=? JsMap.size (cache s))%nat then evictOldestEntry s else s in
  (with_cache s1 (JsMap.set key entry (cache s1)), true).

Definition has (now : Z) (key : string) (s : t) : t * bool :=
  match JsMap.get key (cache s) with
  | None => (s, false)
  | Some entry =>
      if isExpired now entry
      then (with_cache s (JsMap.delete key (cache s)), false)
      else (s, true)
  end.

Definition delete (key : string) (s : t) : t * bool :=
  (with_cache s (JsMap.delete key (cache s)), JsMap.has key (cache s)).

Definition clear (s : t) : t * bool :=
  ({| cache := JsMap.empty;
      stats := {| stats_hits := 0; stats_misses := 0 |} |}, true).

Definition getStats (s : t) : CacheStats :=
  {| hits := stats_hits (stats s);
     misses := stats_misses (stats s);
     size := JsMap.size (cache s) |}.

(** The loop of [cleanup] over [this.cache.entries()]. Deleting the entry
    under the iterator does not disturb the iteration of a [Map], so the
    loop visits the entries present at its start. *)
Fixpoint cleanup_loop (now : Z) (it : list (string * CacheEntry))
    (m : JsMap.t CacheEntry) (removedCount : nat)
    : JsMap.t CacheEntry * nat :=
  match it with
  | [] => (m, removedCount)
  | (key, entry) :: it' =>
      if (expiry entry <=? now)%Z
      then cleanup_loop now it' (JsMap.delete key m) (S removedCount)
      else cleanup_loop now it' m removedCount
  end.

Definition cleanup (now : Z) (s : t) : t * nat :=
  let '(m, removedCount) := cleanup_loop now (cache s) (cache s) 0 in
  (with_cache s m, removedCount).

(** [Array.prototype.sort()] with the default comparison orders strings by
    their code units; [String.leb] is that order on Rocq strings. A total
    antisymmetric order has one sorted arrangement of a list, so the sorting
    algorithm does not matter; this one is insertion sort. *)
Fixpoint insert_key (k : string) (ks : list string) : list string :=
  match ks with
  | [] => [k]
  | k' :: ks' => if String.leb k k' then k :: ks else k' :: insert_key k ks'
  end.

Fixpoint sort_keys (ks : list string) : list string :=
  match ks with
  | [] => []
  | k :: ks' => insert_key k (sort_keys ks')
  end.

(** [JSON.stringify] is a library function; the key is parametric in it. *)
Variable JSON_stringify : V -> string.

(** The template literal [`${k}=${JSON.stringify(params[k])}`]; a missing
    property reads as [undefined], which the template prints as such. *)
Definition key_value_pair (params : JsMap.t V) (k : string) : string :=
  (k ++ "=" ++
   match JsMap.get k params with
   | Some v => JSON_stringify v
   | None => "undefined"
   end)%string.

(** [generateKey(url, params?)]: [params] is a [Record<string, any>], an
    object whose own keys are unique and come in property order; [None] is an
    omitted argument. *)
Definition generateKey (url : string) (params : option (JsMap.t V)) : string :=
  match params with
  | None => url
  | Some p =>
      if (0 <? List.length (JsMap.keys p))%nat
      then
        let queryString :=
          String.concat "&" (map (key_value_pair p) (sort_keys (JsMap.keys p))) in
        (url ++ "?" ++ queryString)%string
      else url
  end.

End Service.

Arguments CacheEntry : clear implicits.
Arguments t : clear implicits.

End CacheService.

(* ------------------------------------------------------------------ *)
(** ** Clients of the service: sequences of calls *)

Module Calls.

Import CacheService.

Section Calls.
Context {V : Type}.

(** One call of a method of the service; the results are dropped, the
    service after the call is kept. *)
Inductive Op : Type :=
| OpGet (key : string)
| OpSet (key : string) (v : V) (options : option CacheOptions)
| OpHas (key : string)
| OpDelete (key : string)
| OpClear
| OpCleanup.

(** A call together with the clock reading [Date.now()] it sees. *)
Definition step (s : CacheService.t V) (call : Z * Op) : CacheService.t V :=
  let now := fst call in
  match snd call with
  | OpGet key => fst (get now key s)
  | OpSet key v options => fst (set now key v options s)
  | OpHas key => fst (has now key s)
  | OpDelete key => fst (delete key s)
  | OpClear => fst (clear s)
  | OpCleanup => fst (cleanup now s)
  end.

Definition run (s : CacheService.t V) (calls : list (Z * Op)) : CacheService.t V :=
  fold_left step calls s.

(** The number of [get] calls issued after the last [clear], counting on
    from [n]. *)
Fixpoint gets_since_clear (n : nat) (calls : list (Z * Op)) : nat :=
  match calls with
  | [] => n
  | (_, OpClear) :: rest => gets_since_clear 0 rest
  | (_, OpGet _) :: rest => gets_since_clear (S n) rest
  | _ :: rest => gets_since_clear n rest
  end.

(** The keys a sequence of calls stores under. *)
Fixpoint set_keys (calls : list (Z * Op)) : list string :=
  match calls with
  | [] => []
  | (_, OpSet key _ _) :: rest => key :: set_keys rest
  | _ :: rest => set_keys rest
  end.

End Calls.

Arguments Op : clear implicits.

(** [key_of_nat n] is [n] letters: the keys [key_of_nat 0], [key_of_nat 1],
    ... are pairwise different, and the first of them is the empty string. *)
Fixpoint key_of_nat (n : nat) : string :=
  match n with
  | O => EmptyString
  | S n' => String "k"%char (key_of_nat n')
  end.

(** [set(key_of_nat first, v)], ..., one call per millisecond from time
    [first] on, [count] calls in all. *)
Definition inserts (first count : nat) (v : nat) : list (Z * Op nat) :=
  map (fun i => (Z.of_nat i, OpSet (key_of_nat i) v None)) (seq first count).

End Calls.

(* ------------------------------------------------------------------ *)
(** ** [cachingInterceptor] *)

Module Interceptor.

(** The fields of an [HttpResponse] the interceptor copies around. *)
Record HttpResponse : Type := mkResponse {
  body : string;
  status : Z;
  statusText : string;
  url : option string
}.

(** [HttpResponse.clone()] without an update: a fresh response with the
    same fields. *)
Definition clone (r : HttpResponse) : HttpResponse :=
  {| body := body r; status := status r;
     statusText := statusText r; url := url r |}.

Record HttpRequest : Type := mkRequest {
  method : string;
  urlWithParams : string
}.

(** What flows at run time through the cache ([CacheEntry<any>]) and the
    observables: the kinds of [HttpEvent], an error response, and plain
    values another client of the singleton service may have stored. *)
Inductive JsValue : Type :=
| JsNull
| JsNumber (n : Z)
| JsString (s : string)
| JsBoolean (b : bool)
| HttpSentEvent
| HttpProgressEvent (loaded : Z)
| HttpHeaderResponse (headerStatus : Z)
| HttpResponseEvent (r : HttpResponse)
| HttpUserEvent
| HttpErrorResponse (errorStatus : Z) (message : string).

(** JavaScript truthiness, as in [if (cachedResponse)]. *)
Definition truthy (v : JsValue) : bool :=
  match v with
  | JsNull => false
  | JsNumber n => negb (n =? 0)%Z
  | JsString s => negb (String.eqb s EmptyString)
  | JsBoolean b => b
  | _ => true
  end.

(** [event instanceof HttpResponse] *)
Definition instanceof_HttpResponse (v : JsValue) : option HttpResponse :=
  match v with
  | HttpResponseEvent r => Some r
  | _ => None
  end.

(** How an observable ends. *)
Inductive Completion : Type :=
| Complete
| Error (e : JsValue).

(** One subscription to an observable, run to its end: the values it
    delivers, each with the clock reading at its delivery, and how it
    ends. *)
Record Observable : Type := mkObservable {
  emitted : list (Z * JsValue);
  completion : Completion
}.

(** [of(v)], subscribed at [now]. *)
Definition rx_of (now : Z) (v : JsValue) : Observable :=
  {| emitted := [(now, v)]; completion := Complete |}.

(** The service the interceptor injects, and the log of the requests the
    continuation [next] was invoked with. *)
Record World : Type := mkWorld {
  cacheService : CacheService.t JsValue;
  calls : list HttpRequest
}.

(** The callback given to [tap]: it runs at each delivered value. *)
Definition tap_callback (req : HttpRequest) (s : CacheService.t JsValue)
    (delivery : Z * JsValue) : CacheService.t JsValue :=
  match instanceof_HttpResponse (snd delivery) with
  | Some r =>
      fst (CacheService.set (fst delivery) (urlWithParams req)
             (HttpResponseEvent (clone r)) None s)
  | None => s
  end.

(** [next(req).pipe(tap(...))], subscribed once: [tap] passes every value
    and the completion or the error through. *)
Definition call_next_and_tap (req : HttpRequest) (next : HttpRequest -> Observable)
    (s : CacheService.t JsValue) (log : list HttpRequest) : World * Observable :=
  let o := next req in
  ({| cacheService := fold_left (tap_callback req) (emitted o) s;
      calls := log ++ [req] |}, o).

(** [cachingInterceptor(req, next)] called at [now], its result subscribed
    once. *)
Definition cachingInterceptor (now : Z) (req : HttpRequest)
    (next : HttpRequest -> Observable) (w : World) : World * Observable :=
  if negb (String.eqb (method req) "GET")
  then ({| cacheService := cacheService w; calls := calls w ++ [req] |}, next req)
  else
    let '(s, cachedResponse) :=
      CacheService.get now (urlWithParams req) (cacheService w) in
    match cachedResponse with
    | Some v =>
        if truthy v
        then ({| cacheService := s; calls := calls w |}, rx_of now v)
        else call_next_and_tap req next s (calls w)
    | None => call_next_and_tap req next s (calls w)
    end.

End Interceptor.

(* ------------------------------------------------------------------ *)
(** ** Notions the properties are stated with *)

Module Props.

Import CacheService Interceptor.

Section Service.
Context {V : Type}.
Implicit Types (s : CacheService.t V) (it : list (string * CacheEntry V)).

(** The map [set] inserts into: the cache itself, or the cache after the
    eviction when it is full. *)
Definition before_insert s : CacheService.t V :=
  if (maxSize <=? JsMap.size (cache s))%nat then evictOldestEntry s else s.

(** The test of the [cleanup] loop. *)
Definition stale (now : Z) (p : string * CacheEntry V) : bool :=
  (expiry (snd p) <=? now)%Z.

(** Whether the loop over [it] deletes the key of [p]. *)
Definition swept (now : Z) it (p : string * CacheEntry V) : bool :=
  existsb (fun q => String.eqb (fst q) (fst p) && stale now q) it.

(** [(k, e)] is the entry the scan settles on: no entry before it is as old,
    no entry after it is older. *)
Definition first_oldest it (pre : list (string * CacheEntry V)) (k : string)
    (e : CacheEntry V) (post : list (string * CacheEntry V)) : Prop :=
  it = pre ++ (k, e) :: post /\
  Forall (fun p => (createdAt e < createdAt (snd p))%Z) pre /\
  Forall (fun p => (createdAt e <= createdAt (snd p))%Z) post.

(** [hits + misses] *)
Definition lookups s : nat := stats_hits (stats s) + stats_misses (stats s).

(** Unique keys, none of them the empty string, and at most [maxSize] of
    them. *)
Definition bounded s : Prop :=
  JsMap.wf (cache s) /\
  ~ In EmptyString (JsMap.keys (cache s)) /\
  JsMap.size (cache s) <= maxSize.

(** The property of a parameter record under a key, as a list of at most one
    pair. *)
Definition property (p : JsMap.t V) (k : string) : list (string * V) :=
  match JsMap.get k p with
  | Some v => [(k, v)]
  | None => []
  end.

(** [name=JSON(value)] *)
Definition serialize (JSON_stringify : V -> string) (kv : string * V) : string :=
  (fst kv ++ "=" ++ JSON_stringify (snd kv))%string.

End Service.

(** The order of [sort()] on keys. *)
Definition key_le (a b : string) : Prop := String.leb a b = true.

(** [JSON.stringify] on the numbers 0 to 9, enough for the examples. *)
Definition stringify_digit (n : nat) : string :=
  String (ascii_of_nat (48 + n)) EmptyString.

(** The completed responses among the delivered values, with the times of
    their delivery. *)
Fixpoint responses (deliveries : list (Z * JsValue)) : list (Z * HttpResponse) :=
  match deliveries with
  | [] => []
  | (t, v) :: rest =>
      match instanceof_HttpResponse v with
      | Some r => (t, r) :: responses rest
      | None => responses rest
      end
  end.

(** What the interceptor tests after its lookup: a truthy cached value. *)
Definition cached (now : Z) (key : string) (s : CacheService.t JsValue) : bool :=
  match snd (CacheService.get now key s) with
  | Some v => truthy v
  | None => false
  end.

(** The continuation fails with [e]: its observable ends in the error [e] and
    has delivered no response. An HTTP backend delivers an [HttpResponse] as
    its last value and then completes, or it ends in an error instead. *)
Definition fails (o : Observable) (e : JsValue) : Prop :=
  completion o = Error e /\ responses (emitted o) = [].

(** Storing one response, as the [tap] callback does. *)
Definition store_response (key : string) (s : CacheService.t JsValue)
    (tr : Z * HttpResponse) : CacheService.t JsValue :=
  fst (CacheService.set (fst tr) key (HttpResponseEvent (clone (snd tr))) None s).

End Props.

(* ------------------------------------------------------------------ *)
(** ** Concrete services, requests and continuations *)

Module Examples.

Import CacheService Calls Interceptor.

(** [set("x", 42, {ttl: 100})] at time 0 on a new service. *)
Definition one_entry : CacheService.t nat :=
  fst (set 0 "x" 42 (Some (mkOptions (Some 100%Z) None)) create).

(** Three entries stored at time 0, two of them with a ttl of 10 ms. *)
Definition three_entries : CacheService.t nat :=
  run create
    [(0%Z, OpSet "a" 1 (Some (mkOptions (Some 10%Z) None)));
     (0%Z, OpSet "b" 2 (Some (mkOptions (Some 10%Z) None)));
     (0%Z, OpSet "c" 3 None)].

Definition get_users : HttpRequest :=
  {| method := "GET"; urlWithParams := "https://reqres.in/api/users" |}.

Definition post_user : HttpRequest :=
  {| method := "POST"; urlWithParams := "https://reqres.in/api/users" |}.

Definition users_response : HttpResponse :=
  {| body := "[]"; status := 200; statusText := "OK";
     url := Some "https://reqres.in/api/users"%string |}.

(** A continuation that reports the request as sent at time 5 and delivers
    the response at time 9. *)
Definition responding : HttpRequest -> Observable :=
  fun _ =>
    {| emitted := [(5%Z, HttpSentEvent); (9%Z, HttpResponseEvent users_response)];
       completion := Complete |}.

(** A continuation that reports the request as sent and then fails. *)
Definition failing : HttpRequest -> Observable :=
  fun _ =>
    {| emitted := [(5%Z, HttpSentEvent)];
       completion := Error (HttpErrorResponse 500 "Internal Server Error") |}.

(** A new service and a continuation not yet invoked. *)
Definition new_world : World :=
  {| cacheService := CacheService.create; calls := [] |}.

End Examples.

(* ------------------------------------------------------------------ *)
(** ** The RxJS operators [UserService] pipes its requests through *)

Module Rx.

(** How a subscription ends: [complete()] or [error(e)]. *)
Inductive Ending (E : Type) : Type :=
| Completed
| Failed (e : E).

Arguments Completed {E}.
Arguments Failed {E} e.

(** One subscription run to its end. *)
Record Run (A E : Type) : Type := mkRun {
  delivered : list A;
  ending : Ending E
}.

(** A cold observable: subscribing to it acts on the world [W] (it sends a
    request, say) and gives a run; every subscription acts anew. *)
Definition Cold (W A E : Type) : Type := W -> W * Run A E.

Section Operators.
Context {W A B E : Type}.

(** [of(v)] *)
Definition of_value (v : A) : Cold W A E :=
  fun w => (w, {| delivered := [v]; ending := Completed |}).

(** The values [map(f)] passes on, up to the first one [f] throws at. *)
Fixpoint map_values (f : A -> B + E) (values : list A) : list B * option E :=
  match values with
  | [] => ([], None)
  | a :: rest =>
      match f a with
      | inl b => let '(bs, thrown) := map_values f rest in (b :: bs, thrown)
      | inr e => ([], Some e)
      end
  end.

(** [map(f)]: an exception thrown by [f] ([inr]) becomes the error of the
    result, and nothing after it is delivered. *)
Definition map (f : A -> B + E) (source : Cold W A E) : Cold W B E :=
  fun w =>
    let '(w1, r) := source w in
    let '(bs, thrown) := map_values f (delivered r) in
    (w1, {| delivered := bs;
            ending := match thrown with
                      | Some e => Failed e
                      | None => ending r
                      end |}).

(** [retry({count, delay})] with [count] resubscriptions left: when the
    source fails and resubscriptions are left it subscribes to the source
    again, otherwise it passes the error on. What was delivered before a
    failure stays delivered. The delay before a resubscription is not part
    of the model. *)
Fixpoint retry_left (left : nat) (source : Cold W A E) : Cold W A E :=
  fun w =>
    let '(w1, r) := source w in
    match ending r, left with
    | Failed _, S left' =>
        let '(w2, r2) := retry_left left' source w1 in
        (w2, {| delivered := delivered r ++ delivered r2; ending := ending r2 |})
    | _, _ => (w1, r)
    end.

(** [count <= 0] is no retry at all. *)
Definition retry (count : Z) (source : Cold W A E) : Cold W A E :=
  retry_left (Z.to_nat count) source.

(** [catchError(selector)]: on an error, continue with the observable the
    selector returns for it. *)
Definition catchError (selector : E -> Cold W A E) (source : Cold W A E) : Cold W A E :=
  fun w =>
    let '(w1, r) := source w in
    match ending r with
    | Completed => (w1, r)
    | Failed e =>
        let '(w2, r2) := selector e w1 in
        (w2, {| delivered := delivered r ++ delivered r2; ending := ending r2 |})
    end.

End Operators.

End Rx.

(* ------------------------------------------------------------------ *)
(** ** [HttpHeaders] of [@angular/common/http] *)

Module HttpHeaders.

(** [String.prototype.toLowerCase] on the ASCII letters, of which, with
    digits and punctuation, the name of a header is made. *)
Definition lower_letter (c : ascii) : ascii :=
  let n := nat_of_ascii c in
  if ((65 <=? n) && (n <=? 90))%nat then ascii_of_nat (n + 32) else c.

Fixpoint toLowerCase (s : string) : string :=
  match s with
  | EmptyString => EmptyString
  | String c rest => String (lower_letter c) (toLowerCase rest)
  end.

(** The two maps of the class: [headers], from the lower-case name of a
    header to its values, and [normalizedNames], from the lower-case name to
    the spelling first seen. *)
Record t : Type := mk {
  headers : JsMap.t (list string);
  normalizedNames : JsMap.t string
}.

Definition empty : t := {| headers := []; normalizedNames := [] |}.

(** [setHeaderEntries(name, values)] for a value that is one string: the
    values under the lower-case name are replaced, the spelling is kept if
    it is the first. *)
Definition setHeaderEntries (h : t) (entry : string * string) : t :=
  let key := toLowerCase (fst entry) in
  {| headers := JsMap.set key [snd entry] (headers h);
     normalizedNames :=
       if JsMap.has key (normalizedNames h) then normalizedNames h
       else JsMap.set key (fst entry) (normalizedNames h) |}.

(** [new HttpHeaders(object)]: the entries of the object, in its property
    order. *)
Definition from_object (object : JsMap.t string) : t :=
  fold_left setHeaderEntries object empty.

(** [get(name)]: the first value under the lower-case name, or [null]. *)
Definition get (name : string) (h : t) : option string :=
  match JsMap.get (toLowerCase name) (headers h) with
  | Some (v :: _) => Some v
  | _ => None
  end.

(** [keys()]: the names, as first spelled. *)
Definition keys (h : t) : list string := List.map snd (normalizedNames h).

End HttpHeaders.

(* ------------------------------------------------------------------ *)
(** ** [UserService] ([src/app/services/user.service.ts]) *)

Module UserService.

Import Interceptor Rx.

(** A [User] at run time: an object, its own enumerable properties in order.
    The interface names [id], [email], [first_name], [last_name] and
    [avatar]. What [transformUserResponse] does with its argument, a spread
    and five property reads, sees no more of it than these properties: a
    number or a boolean in the place of a user has none of them and is the
    object [[]]. *)
Definition User : Type := JsMap.t JsValue.

(** [ApiResponse<T>]; [None] is a property that is missing, [undefined] or
    [null]. *)
Record ApiResponse (T : Type) : Type := mkApiResponse {
  page : option Z;
  per_page : option Z;
  total : option Z;
  total_pages : option Z;
  data : option T
}.

Record RequestConfig : Type := mkConfig {
  retryAttempts : option Z;
  headers : option (JsMap.t string)
}.

(** What a request can fail with: an error response of the server, or the
    [TypeError] of a property read on [null]. *)
Inductive Failure : Type :=
| HttpFailure (status : Z)
| TypeError.

(** A request as [HttpClient] sends it. *)
Record HttpCall : Type := mkCall {
  verb : string;
  target : string;
  sent_headers : HttpHeaders.t;
  sent_body : option (JsMap.t JsValue)
}.

Definition baseUrl : string := "https://reqres.in/api/users".
Definition apiKey : string := "reqres-free-v1".
Definition defaultRetryAttempts : Z := 3.

(** [a || b] *)
Definition or_else (a : option JsValue) (b : JsValue) : JsValue :=
  match a with
  | Some v => if truthy v then v else b
  | None => b
  end.

(** [{...object, [key]: value, ...}]: spreading and writing a property are
    both [Map]-like: an existing property keeps its place. *)
Definition spread {X : Type} (object : JsMap.t X) (over : JsMap.t X) : JsMap.t X :=
  fold_left (fun o kv => JsMap.set (fst kv) (snd kv) o) object over.

(** The object literal of [buildHeaders]: the two defaults, the custom
    headers spread over them. *)
Definition headers_literal (customHeaders : option (JsMap.t string)) : JsMap.t string :=
  spread
    (match customHeaders with Some h => h | None => [] end)
    [("Content-Type"%string, "application/json"%string); ("x-api-key"%string, apiKey)].

(** [buildHeaders(customHeaders?)]: [new HttpHeaders(headers)]. *)
Definition buildHeaders (customHeaders : option (JsMap.t string)) : HttpHeaders.t :=
  let headers := headers_literal customHeaders in
  HttpHeaders.from_object headers.

(** [transformUsersResponse(response)]: [response.data || []]; an array is
    truthy even when empty, so it is the missing [data] that gives the empty
    list. *)
Definition transformUsersResponse (response : ApiResponse (list User)) : list User :=
  match data response with
  | Some users => users
  | None => []
  end.

(** [transformUserResponse(user)] on an object. *)
Definition transformUserResponse (user : User) : User :=
  spread
    [("id"%string, or_else (JsMap.get "id" user) (JsNumber 0));
     ("email"%string, or_else (JsMap.get "email" user) (JsString EmptyString));
     ("first_name"%string, or_else (JsMap.get "first_name" user) (JsString EmptyString));
     ("last_name"%string, or_else (JsMap.get "last_name" user) (JsString EmptyString));
     ("avatar"%string, or_else (JsMap.get "avatar" user) (JsString EmptyString))]
    user.

(** Reading a property of [null] or [undefined] throws. *)
Definition on_object {X Y : Type} (f : X -> Y) (x : option X) : Y + Failure :=
  match x with
  | Some o => inl (f o)
  | None => inr TypeError
  end.

(** [handleError(error, operation, fallbackValue)]: logs, and returns
    [of(fallbackValue)]. *)
Definition handleError {W T : Type} (error : Failure) (operation : string)
    (fallbackValue : T) : Cold W T Failure :=
  of_value fallbackValue.

Section Http.
(** The body type of the responses, and the server: given the requests sent
    so far and the request at hand, the body ([None] for [null]) or the
    failure. *)
Context {Body : Type}.
Variable server : list HttpCall -> HttpCall -> option Body + Failure.

(** [this.http.get(url, {headers})] and [this.http.post(url, body,
    {headers})]: each subscription sends the request and delivers the body
    once, or fails. The world is the list of the requests sent. *)
Definition http_request (call : HttpCall) : Cold (list HttpCall) (option Body) Failure :=
  fun sent =>
    (sent ++ [call],
     match server sent call with
     | inl body => {| delivered := [body]; ending := Completed |}
     | inr e => {| delivered := []; ending := Failed e |}
     end).

Definition http_get (url : string) (hdrs : HttpHeaders.t) :=
  http_request {| verb := "GET"; target := url; sent_headers := hdrs; sent_body := None |}.

Definition http_post (url : string) (body : JsMap.t JsValue) (hdrs : HttpHeaders.t) :=
  http_request {| verb := "POST"; target := url; sent_headers := hdrs; sent_body := Some body |}.

End Http.

(** [config?.headers] and [config?.retryAttempts ?? this.defaultRetryAttempts] *)
Definition config_headers (config : option RequestConfig) : option (JsMap.t string) :=
  match config with Some c => headers c | None => None end.

Definition config_retryAttempts (config : option RequestConfig) : Z :=
  match config with
  | Some c => match retryAttempts c with Some n => n | None => defaultRetryAttempts end
  | None => defaultRetryAttempts
  end.

Definition getUsers (server : list HttpCall -> HttpCall -> option (ApiResponse (list User)) + Failure)
    (config : option RequestConfig) : Cold (list HttpCall) (list User) Failure :=
  let hdrs := buildHeaders (config_headers config) in
  let attempts := config_retryAttempts config in
  catchError (fun error => handleError error "fetchUsersFromApi" [])
    (retry attempts
       (map (on_object transformUsersResponse) (http_get server baseUrl hdrs))).

Definition postUser (server : list HttpCall -> HttpCall -> option User + Failure)
    (userData : JsMap.t JsValue) (config : option RequestConfig)
    : Cold (list HttpCall) (option User) Failure :=
  let hdrs := buildHeaders (config_headers config) in
  let attempts := config_retryAttempts config in
  catchError (fun error => handleError error "postUser" None)
    (retry attempts
       (map (on_object (fun response => Some (transformUserResponse response)))
          (http_post server baseUrl userData hdrs))).

(** [transformUserResponse(response.data)] inside [map]: the read of [data]
    on a [null] response throws, and so does the read of [id] on a [data]
    that is missing, [undefined] or [null]. Any other [data] has properties
    to read, possibly none (for [0] or [false] it is [Some []]), and does
    not throw. *)
Definition user_of_response (response : option (ApiResponse User)) : option User + Failure :=
  match response with
  | Some r => on_object (fun user => Some (transformUserResponse user)) (data r)
  | None => inr TypeError
  end.

Section ById.
(** The text of a number in a template literal. *)
Variable number_to_string : Z -> string.

Definition getUserById (server : list HttpCall -> HttpCall -> option (ApiResponse User) + Failure)
    (id : Z) (config : option RequestConfig)
    : Cold (list HttpCall) (option User) Failure :=
  let url := (baseUrl ++ "/" ++ number_to_string id)%string in
  let hdrs := buildHeaders (config_headers config) in
  let attempts := config_retryAttempts config in
  catchError (fun error => handleError error "fetchUserByIdFromApi" None)
    (retry attempts (map user_of_response (http_get server url hdrs))).

End ById.

End UserService.

(* ------------------------------------------------------------------ *)
(** ** Notions the properties of [UserService] are stated with *)

Module UserProps.

Import Interceptor Rx UserService.

(** The fields [transformUserResponse] ensures, with the values it falls back
    on. *)
Definition required_fields : list (string * JsValue) :=
  [("id"%string, JsNumber 0);
   ("email"%string, JsString EmptyString);
   ("first_name"%string, JsString EmptyString);
   ("last_name"%string, JsString EmptyString);
   ("avatar"%string, JsString EmptyString)].

(** A user all of whose required fields are there and truthy. *)
Definition complete (user : User) : Prop :=
  forall field, In field (List.map fst required_fields) ->
    exists v, JsMap.get field user = Some v /\ truthy v = true.

Definition get_call (url : string) (hdrs : HttpHeaders.t) : HttpCall :=
  {| verb := "GET"; target := url; sent_headers := hdrs; sent_body := None |}.

Definition post_call (url : string) (body : JsMap.t JsValue) (hdrs : HttpHeaders.t) : HttpCall :=
  {| verb := "POST"; target := url; sent_headers := hdrs; sent_body := Some body |}.

(** What one attempt comes to when [sent] are the requests sent before it:
    the value [map(f)] delivers, or the failure of the server or of [f]. *)
Definition outcome {Body B : Type}
    (server : list HttpCall -> HttpCall -> option Body + Failure)
    (f : option Body -> B + Failure) (call : HttpCall) (sent : list HttpCall)
    : B + Failure :=
  match server sent call with
  | inl body => f body
  | inr e => inr e
  end.

(** The run of an attempt with that outcome. *)
Definition run_of {B : Type} (o : B + Failure) : Run B Failure :=
  match o with
  | inl b => {| delivered := [b]; ending := Completed |}
  | inr e => {| delivered := []; ending := Failed e |}
  end.

(** The number of resubscriptions [retry] is configured with. *)
Definition retries (config : option RequestConfig) : nat :=
  Z.to_nat (config_retryAttempts config).

(** The observable [retry] resubscribes to: the request, its body mapped. *)
Definition request_source {Body B : Type}
    (server : list HttpCall -> HttpCall -> option Body + Failure)
    (f : option Body -> B + Failure) (call : HttpCall) : Cold (list HttpCall) B Failure :=
  Rx.map f (http_request server call).

(** The pipe the three methods share. *)
Definition pipeline {Body B : Type}
    (server : list HttpCall -> HttpCall -> option Body + Failure)
    (f : option Body -> B + Failure) (call : HttpCall)
    (count : Z) (operation : string) (fallback : B) : Cold (list HttpCall) B Failure :=
  catchError (fun error => handleError error operation fallback)
    (retry count (request_source server f call)).

(** The requests sent once [call] has been sent [k] more times. *)
Definition sent_again (sent : list HttpCall) (call : HttpCall) (k : nat) : list HttpCall :=
  sent ++ repeat call k.



(** The server gives no usable answer to the attempt: it fails, or the body
    is [null]. *)
Definition unanswered {Body : Type}
    (server : list HttpCall -> HttpCall -> option Body + Failure)
    (call : HttpCall) (sent : list HttpCall) : Prop :=
  forall body, server sent call <> inl (Some body).

End UserProps.

(* ------------------------------------------------------------------ *)
(** ** Concrete users, servers and caches *)

Module MoreExamples.

Import CacheService Calls Interceptor Rx UserService.

Definition janet : User :=
  [("id"%string, JsNumber 1);
   ("email"%string, JsString "janet.weaver@reqres.in");
   ("first_name"%string, JsString "Janet");
   ("last_name"%string, JsString "Weaver");
   ("avatar"%string, JsString "https://reqres.in/img/faces/2-image.jpg")].

Definition users_page : ApiResponse (list User) :=
  {| page := Some 1%Z; per_page := Some 6%Z; total := Some 12%Z;
     total_pages := Some 2%Z; data := Some [janet] |}.

(** A server that fails the first two requests and answers the third. *)
Definition flaky : list HttpCall -> HttpCall -> option (ApiResponse (list User)) + Failure :=
  fun sent _ =>
    if (List.length sent <? 2)%nat then inr (HttpFailure 503) else inl (Some users_page).

(** A server that fails every request. *)
Definition down {Body : Type} : list HttpCall -> HttpCall -> option Body + Failure :=
  fun _ _ => inr (HttpFailure 500).

(** A server that answers every request with a response without [data]. *)
Definition no_data : list HttpCall -> HttpCall -> option (ApiResponse User) + Failure :=
  fun _ _ =>
    inl (Some {| page := None; per_page := None; total := None;
                 total_pages := None; data := None |}).

(** A server that answers every request with a response whose [data] is the
    number [0]. *)
Definition zero_data : list HttpCall -> HttpCall -> option (ApiResponse User) + Failure :=
  fun _ _ =>
    inl (Some {| page := None; per_page := None; total := None;
                 total_pages := None; data := Some [] |}).

(** A server that answers every request with [janet]. *)
Definition answers_janet : list HttpCall -> HttpCall -> option (ApiResponse User) + Failure :=
  fun _ _ =>
    inl (Some {| page := None; per_page := None; total := None;
                 total_pages := None; data := Some janet |}).



(** Decimal digits, for ids below ten. *)
Definition digit_to_string (n : Z) : string :=
  String (ascii_of_nat (48 + Z.to_nat n)) EmptyString.

(** A full cache: 100 entries under the keys of 1 to 100 letters, stored at
    times 1 to 100. *)
Definition full_cache : CacheService.t nat := run create (inserts 1 100 7).

(** A world whose cache holds a response for [get_users], stored at time 9;
    and one that holds the number [0] under that key. *)
Definition warm_world : World :=
  fst (cachingInterceptor 0 Examples.get_users Examples.responding Examples.new_world).

Definition zero_world : World :=
  {| cacheService :=
       fst (CacheService.set 0 (urlWithParams Examples.get_users) (JsNumber 0) None
              CacheService.create);
     calls := [] |}.

End MoreExamples.

(* ------------------------------------------------------------------ *)
(** ** Facts about the ordered map *)

Module JsMapFacts.

Import JsMap.

Section Facts.
Context {X : Type}.
Implicit Types (m : JsMap.t X) (k : string) (x : X).

Lemma has_true_iff k m : has k m = true <-> In k (keys m).
Proof.
  unfold has. induction m as [|[k' x'] m IH]; simpl.
  - split; [discriminate | tauto].
  - destruct (String.eqb_spec k' k) as [->|Hne].
    + split; auto.
    + rewrite IH. split; [auto | intros [H|H]; [congruence | exact H]].
Qed.

Lemma has_false_iff k m : has k m = false <-> ~ In k (keys m).
Proof.
  rewrite <- has_true_iff. destruct (has k m); split; congruence.
Qed.

Lemma get_None_iff k m : get k m = None <-> ~ In k (keys m).
Proof.
  rewrite <- has_false_iff. unfold has.
  destruct (get k m); split; congruence.
Qed.

Lemma get_In k x m : get k m = Some x -> In (k, x) m.
Proof.
  induction m as [|[k' x'] m IH]; simpl; [discriminate|].
  destruct (String.eqb_spec k' k) as [->|Hne].
  - intros [= ->]. now left.
  - intros H. right. auto.
Qed.

Lemma In_get k x m : wf m -> In (k, x) m -> get k m = Some x.
Proof.
  unfold wf. induction m as [|[k' x'] m IH]; simpl; [tauto|].
  intros Hnd [Heq|Hin].
  - inversion Heq; subst. now rewrite String.eqb_refl.
  - inversion Hnd as [|? ? Hnotin Hnd']; subst.
    destruct (String.eqb_spec k' k) as [->|Hne].
    + exfalso. apply Hnotin. change k with (fst (k, x)). now apply in_map.
    + auto.
Qed.

Lemma get_set_same k x m : get k (set k x m) = Some x.
Proof.
  induction m as [|[k' x'] m IH]; simpl.
  - now rewrite String.eqb_refl.
  - destruct (String.eqb_spec k' k) as [->|Hne]; simpl.
    + now rewrite String.eqb_refl.
    + destruct (String.eqb_spec k' k); [contradiction | exact IH].
Qed.

Lemma get_set_other k k' x m : k <> k' -> get k' (set k x m) = get k' m.
Proof.
  intros Hne. induction m as [|[k0 x0] m IH]; simpl.
  - destruct (String.eqb_spec k k'); [contradiction | reflexivity].
  - destruct (String.eqb_spec k0 k) as [->|Hne0]; simpl.
    + destruct (String.eqb_spec k k'); [contradiction | reflexivity].
    + now rewrite IH.
Qed.

Lemma get_delete_same k m : get k (delete k m) = None.
Proof.
  unfold delete. induction m as [|[k' x'] m IH]; simpl; [reflexivity|].
  destruct (String.eqb_spec k' k) as [->|Hne]; simpl; [exact IH|].
  destruct (String.eqb_spec k' k); [contradiction | exact IH].
Qed.

Lemma get_delete_other k k' m : k <> k' -> get k' (delete k m) = get k' m.
Proof.
  intros Hne. unfold delete. induction m as [|[k0 x0] m IH]; simpl; [reflexivity|].
  destruct (String.eqb_spec k0 k) as [->|Hne0]; simpl.
  - destruct (String.eqb_spec k k'); [contradiction | exact IH].
  - now rewrite IH.
Qed.

Lemma In_delete k k' x m : In (k', x) (delete k m) <-> In (k', x) m /\ k' <> k.
Proof.
  unfold delete. rewrite filter_In. simpl.
  destruct (String.eqb_spec k' k); simpl; intuition congruence.
Qed.

Lemma keys_delete k k' m : In k' (keys (delete k m)) <-> In k' (keys m) /\ k' <> k.
Proof.
  unfold keys. rewrite !in_map_iff. split.
  - intros [[k0 x] [Hk Hin]]. simpl in Hk. subst k0.
    apply In_delete in Hin. destruct Hin as [Hin Hne]. split; [|exact Hne].
    exists (k', x). auto.
  - intros [[[k0 x] [Hk Hin]] Hne]. simpl in Hk. subst k0.
    exists (k', x). split; [reflexivity|]. apply In_delete. auto.
Qed.

Lemma keys_set k k' x m : In k' (keys (set k x m)) <-> k' = k \/ In k' (keys m).
Proof.
  induction m as [|[k0 x0] m IH]; simpl.
  - intuition.
  - destruct (String.eqb_spec k0 k) as [->|Hne]; simpl.
    + intuition.
    + rewrite IH. intuition.
Qed.

Lemma wf_empty : wf (@empty X).
Proof. constructor. Qed.

Lemma wf_set k x m : wf m -> wf (set k x m).
Proof.
  unfold wf. induction m as [|[k0 x0] m IH]; simpl; intros Hnd.
  - constructor; [simpl; tauto | constructor].
  - inversion Hnd as [|? ? Hnotin Hnd']; subst.
    destruct (String.eqb_spec k0 k) as [->|Hne]; simpl.
    + now constructor.
    + constructor; [|now apply IH].
      intros Hin. apply (keys_set k k0 x m) in Hin.
      destruct Hin as [Heq|Hin]; [congruence | contradiction].
Qed.

Lemma wf_delete k m : wf m -> wf (delete k m).
Proof.
  unfold wf, delete. induction m as [|[k0 x0] m IH]; simpl; intros Hnd.
  - constructor.
  - inversion Hnd as [|? ? Hnotin Hnd']; subst.
    destruct (String.eqb k0 k); simpl; [now apply IH|].
    constructor; [|now apply IH].
    intros Hin. apply (keys_delete k k0 m) in Hin. tauto.
Qed.

Lemma size_set k x m :
  size (set k x m) = if has k m then size m else S (size m).
Proof.
  unfold size, has. induction m as [|[k0 x0] m IH]; simpl; [reflexivity|].
  destruct (String.eqb_spec k0 k) as [->|Hne]; simpl; [reflexivity|].
  rewrite IH. now destruct (get k m).
Qed.

Lemma delete_absent k m : ~ In k (keys m) -> delete k m = m.
Proof.
  unfold delete. induction m as [|[k0 x0] m IH]; simpl; intros Hnotin; [reflexivity|].
  destruct (String.eqb_spec k0 k) as [->|Hne]; simpl; [tauto|].
  f_equal. apply IH. tauto.
Qed.

Lemma size_delete_present k m :
  wf m -> In k (keys m) -> S (size (delete k m)) = size m.
Proof.
  unfold wf, size. induction m as [|[k0 x0] m IH]; simpl; intros Hnd Hin; [tauto|].
  inversion Hnd as [|? ? Hnotin Hnd']; subst.
  destruct (String.eqb_spec k0 k) as [->|Hne].
  - change (filter _ m) with (delete k m).
    now rewrite (delete_absent k m).
  - destruct Hin as [Heq|Hin]; [congruence|].
    change (filter _ ((k0, x0) :: m)) with (delete k ((k0, x0) :: m)).
    unfold delete. simpl. destruct (String.eqb_spec k0 k); [contradiction|].
    simpl. f_equal. now apply IH.
Qed.

Lemma size_delete_le k m : size (delete k m) <= size m.
Proof. apply filter_length_le. Qed.

End Facts.

End JsMapFacts.

(* ------------------------------------------------------------------ *)
(** ** The service: stored entries, expiry, counters, cleanup *)

Module CacheFacts.

Import CacheService Props.

Create HintDb jsmap.
#[local] Hint Resolve JsMapFacts.wf_set JsMapFacts.wf_delete JsMapFacts.wf_empty : jsmap.

Section Facts.
Context {V : Type}.
Implicit Types (s : CacheService.t V) (key : string) (now : Z).

(** *** Eviction leaves the counters alone and only ever deletes *)

Lemma stats_evictOldestEntry s : stats (evictOldestEntry s) = stats s.
Proof.
  unfold evictOldestEntry.
  destruct (oldest_scan (cache s) None None) as [k|]; [|reflexivity].
  now destruct (truthy_key (Some k)).
Qed.

Lemma wf_evictOldestEntry s :
  JsMap.wf (cache s) -> JsMap.wf (cache (evictOldestEntry s)).
Proof.
  intros Hwf. unfold evictOldestEntry.
  destruct (oldest_scan (cache s) None None) as [k|]; [|exact Hwf].
  destruct (truthy_key (Some k)); simpl; auto with jsmap.
Qed.

Lemma cache_set now key v options s :
  cache (fst (set now key v options s)) =
  JsMap.set key
    {| value := v; expiry := (now + ttl_or_default options)%Z; createdAt := now |}
    (cache (before_insert s)).
Proof. reflexivity. Qed.

Lemma stats_set now key v options s :
  stats (fst (set now key v options s)) = stats s.
Proof.
  unfold set. cbn [fst with_cache stats].
  destruct (maxSize <=? JsMap.size (cache s))%nat; [|reflexivity].
  apply stats_evictOldestEntry.
Qed.

Lemma get_after_set now key v options s :
  JsMap.get key (cache (fst (set now key v options s))) =
  Some {| value := v; expiry := (now + ttl_or_default options)%Z; createdAt := now |}.
Proof. rewrite cache_set. apply JsMapFacts.get_set_same. Qed.

(** *** The [cleanup] loop is a filter *)

Lemma cleanup_loop_filter now (it : list (string * CacheEntry V)) : forall m n,
  cleanup_loop now it m n =
  (filter (fun p => negb (swept now it p)) m,
   n + List.length (filter (stale now) it)).
Proof.
  induction it as [|[k e] it IH]; intros m n; simpl.
  - f_equal; [|lia]. induction m as [|p m IHm]; simpl; congruence.
  - assert (Hst : stale now (k, e) = (expiry e <=? now)%Z) by reflexivity.
    rewrite Hst. destruct (expiry e <=? now)%Z eqn:He; rewrite IH; simpl.
    + f_equal; [|lia]. unfold JsMap.delete.
      induction m as [|p m IHm]; simpl; [reflexivity|].
      rewrite andb_true_r.
      destruct (String.eqb k (fst p)) eqn:Hk.
      * apply String.eqb_eq in Hk. subst k. rewrite String.eqb_refl. simpl. exact IHm.
      * rewrite String.eqb_sym, Hk. simpl.
        destruct (swept now it p); simpl; congruence.
    + f_equal. apply filter_ext. intros p. now rewrite andb_false_r.
Qed.

Lemma swept_self now (m : JsMap.t (CacheEntry V)) p :
  JsMap.wf m -> In p m -> swept now m p = stale now p.
Proof.
  intros Hwf Hin. unfold swept.
  destruct (stale now p) eqn:Hp.
  - apply existsb_exists. exists p. now rewrite String.eqb_refl.
  - destruct (existsb _ m) eqn:Hex; [|reflexivity].
    apply existsb_exists in Hex. destruct Hex as [[k' e'] [Hin' Hq]].
    apply andb_true_iff in Hq. destruct Hq as [Hk Hst].
    simpl in Hk. apply String.eqb_eq in Hk. destruct p as [k e]. simpl in Hk. subst k'.
    assert (e' = e) as ->.
    { apply JsMapFacts.In_get in Hin, Hin'; auto. congruence. }
    congruence.
Qed.

Lemma cache_cleanup now s :
  JsMap.wf (cache s) ->
  cache (fst (cleanup now s)) = filter (fun p => negb (stale now p)) (cache s).
Proof.
  intros Hwf. unfold cleanup. rewrite cleanup_loop_filter. simpl.
  apply filter_ext_in. intros p Hin. now rewrite swept_self.
Qed.

Lemma count_cleanup now s :
  snd (cleanup now s) = List.length (filter (stale now) (cache s)).
Proof. unfold cleanup. now rewrite cleanup_loop_filter. Qed.

Lemma stats_cleanup now s : stats (fst (cleanup now s)) = stats s.
Proof. unfold cleanup. now rewrite cleanup_loop_filter. Qed.

Lemma wf_filter (f : string * CacheEntry V -> bool) (m : JsMap.t (CacheEntry V)) :
  JsMap.wf m -> JsMap.wf (filter f m).
Proof.
  unfold JsMap.wf, JsMap.keys. induction m as [|p m IH]; simpl; intros Hnd; [constructor|].
  inversion Hnd as [|? ? Hnotin Hnd']; subst.
  destruct (f p); simpl; [|now apply IH].
  constructor; [|now apply IH].
  intros Hin. apply Hnotin. apply in_map_iff in Hin.
  destruct Hin as [q [Hq Hin]]. apply filter_In in Hin.
  apply in_map_iff. exists q. tauto.
Qed.

Lemma filter_split_length {A : Type} (f : A -> bool) (l : list A) :
  List.length (filter (fun a => negb (f a)) l) + List.length (filter f l) = List.length l.
Proof.
  induction l as [|a l IH]; simpl; [reflexivity|].
  destruct (f a); simpl; lia.
Qed.

End Facts.

(** *** The claims about single calls *)

Section Claims.
Context {V : Type}.
Implicit Types (s : CacheService.t V) (key : string) (now : Z).

(** C1, as amended: after [set(key, value, options)] at time [now] the entry
    stored under [key] holds [value], was created at [now] and expires at
    [now + (options.ttl || defaultTTL)]: at [now + options.ttl] when a ttl
    other than [0] is supplied, and at [now + 600000] (ten minutes) when the
    ttl is [0], when [options] has no ttl, and when there are no options. *)
Theorem set_expiry_ttl_or_default now key (v : V) s :
  (forall n maxSizeOption, n <> 0%Z ->
     JsMap.get key (cache (fst (set now key v (Some (mkOptions (Some n) maxSizeOption)) s)))
     = Some (mkEntry v (now + n) now)) /\
  (forall maxSizeOption,
     JsMap.get key (cache (fst (set now key v (Some (mkOptions (Some 0%Z) maxSizeOption)) s)))
     = Some (mkEntry v (now + 600000) now)) /\
  (forall maxSizeOption,
     JsMap.get key (cache (fst (set now key v (Some (mkOptions None maxSizeOption)) s)))
     = Some (mkEntry v (now + 600000) now)) /\
  JsMap.get key (cache (fst (set now key v None s)))
  = Some (mkEntry v (now + 600000) now).
Proof.
  repeat split; intros; rewrite get_after_set; try reflexivity.
  simpl. destruct (Z.eqb_spec n 0); [contradiction | reflexivity].
Qed.

(** C4: an entry is expired exactly when the clock is past its expiry; [get]
    and [has] do not return an expired entry ([get] gives [null], [has] gives
    [false]) and delete it from the map on the spot; an entry that is not
    expired is returned and kept. *)
Theorem expired_entry_not_returned_and_deleted now key s entry :
  JsMap.get key (cache s) = Some entry ->
  (isExpired now entry = true <-> (now > expiry entry)%Z) /\
  ((now > expiry entry)%Z ->
     snd (get now key s) = None /\
     JsMap.get key (cache (fst (get now key s))) = None /\
     snd (has now key s) = false /\
     JsMap.get key (cache (fst (has now key s))) = None) /\
  (~ (now > expiry entry)%Z ->
     snd (get now key s) = Some (value entry) /\
     cache (fst (get now key s)) = cache s /\
     snd (has now key s) = true /\
     cache (fst (has now key s)) = cache s).
Proof.
  intros Hget.
  assert (Hexp : isExpired now entry = true <-> (now > expiry entry)%Z).
  { unfold isExpired. rewrite Z.ltb_lt. lia. }
  split; [exact Hexp|]. unfold get, has. rewrite Hget.
  split; intros Hnow.
  - apply Hexp in Hnow. rewrite Hnow. simpl.
    repeat split; apply JsMapFacts.get_delete_same.
  - destruct (isExpired now entry); [exfalso; apply Hnow, Hexp; reflexivity|].
    simpl. repeat split.
Qed.

(** Whatever [get] returns is the value of an entry that is stored under the
    key and has not expired. *)
Lemma get_returns_live_value now key s (v : V) :
  snd (get now key s) = Some v ->
  exists entry, JsMap.get key (cache s) = Some entry /\
                value entry = v /\ (now <= expiry entry)%Z.
Proof.
  unfold get. destruct (JsMap.get key (cache s)) as [entry|]; [|discriminate].
  unfold isExpired. destruct (Z.ltb_spec (expiry entry) now); simpl; [discriminate|].
  intros [= <-]. exists entry. auto.
Qed.

(** C6: [cleanup] removes exactly the entries whose expiry is at or before
    the clock, in place; it returns how many it removed, and the counters of
    hits and misses stay as they were. *)
Theorem cleanup_removes_stale_entries now s :
  JsMap.wf (cache s) ->
  let s' := fst (cleanup now s) in
  let removed := snd (cleanup now s) in
  (forall key entry,
     JsMap.get key (cache s') = Some entry <->
     JsMap.get key (cache s) = Some entry /\ ~ (expiry entry <= now)%Z) /\
  removed = List.length (filter (fun p => (expiry (snd p) <=? now)%Z) (cache s)) /\
  JsMap.size (cache s') + removed = JsMap.size (cache s) /\
  stats s' = stats s.
Proof.
  intros Hwf s' removed. subst s' removed.
  rewrite cache_cleanup by exact Hwf. rewrite count_cleanup, stats_cleanup.
  split; [|split; [reflexivity|split; [|reflexivity]]].
  - intros key entry. split.
    + intros Hget. apply JsMapFacts.get_In in Hget. apply filter_In in Hget.
      destruct Hget as [Hin Hst]. split; [now apply JsMapFacts.In_get|].
      intros Hle. unfold stale in Hst. simpl in Hst.
      apply Z.leb_le in Hle. rewrite Hle in Hst. discriminate.
    + intros [Hget Hnle]. apply JsMapFacts.In_get; [now apply wf_filter|].
      apply filter_In. split; [now apply JsMapFacts.get_In|].
      unfold stale. simpl.
      destruct (Z.leb_spec (expiry entry) now); [contradiction|reflexivity].
  - apply (filter_split_length (stale now)).
Qed.

End Claims.

End CacheFacts.

(* ------------------------------------------------------------------ *)
(** ** Eviction *)

Module EvictionFacts.

Import CacheService Props.

Section Facts.
Context {V : Type}.
Implicit Types (s : CacheService.t V) (it : list (string * CacheEntry V)).

Lemma first_oldest_here k e it :
  Forall (fun p => (createdAt e <= createdAt (snd p))%Z) it ->
  first_oldest ((k, e) :: it) [] k e it.
Proof. intros Hall. repeat split; [constructor | exact Hall]. Qed.

Lemma first_oldest_later key entry it pre k e post :
  first_oldest it pre k e post ->
  (createdAt e < createdAt entry)%Z ->
  first_oldest ((key, entry) :: it) ((key, entry) :: pre) k e post.
Proof.
  intros (Hit & Hpre & Hpost) Hlt. repeat split.
  - simpl. now rewrite Hit.
  - constructor; [exact Hlt | exact Hpre].
  - exact Hpost.
Qed.

Lemma oldest_scan_from it : forall k0 t0,
  (oldest_scan it (Some k0) (Some t0) = Some k0 /\
   Forall (fun p => (t0 <= createdAt (snd p))%Z) it) \/
  (exists pre k e post,
     first_oldest it pre k e post /\
     oldest_scan it (Some k0) (Some t0) = Some k /\
     (createdAt e < t0)%Z).
Proof.
  induction it as [|[key entry] it IH]; intros k0 t0; simpl.
  - left. split; [reflexivity | constructor].
  - destruct (Z.ltb_spec (createdAt entry) t0) as [Hlt|Hge].
    + right.
      destruct (IH key (createdAt entry))
        as [[Hres Hall]|(pre & k & e & post & Hfo & Hres & Hlt')].
      * exists [], key, entry, it.
        split; [now apply first_oldest_here | split; [exact Hres | exact Hlt]].
      * exists ((key, entry) :: pre), k, e, post.
        split; [now apply first_oldest_later | split; [exact Hres | lia]].
    + destruct (IH k0 t0) as [[Hres Hall]|(pre & k & e & post & Hfo & Hres & Hlt')].
      * left. split; [exact Hres|]. constructor; [exact Hge | exact Hall].
      * right. exists ((key, entry) :: pre), k, e, post.
        split; [apply first_oldest_later; [exact Hfo | lia] | split; [exact Hres | exact Hlt']].
Qed.

(** On a map that is not empty the scan finds the first of the oldest
    entries. *)
Lemma oldest_scan_first_oldest it :
  it <> [] ->
  exists pre k e post,
    first_oldest it pre k e post /\ oldest_scan it None None = Some k.
Proof.
  destruct it as [|[key entry] it]; [congruence|]. intros _. simpl.
  destruct (oldest_scan_from it key (createdAt entry))
    as [[Hres Hall]|(pre & k & e & post & Hfo & Hres & Hlt)].
  - exists [], key, entry, it. split; [now apply first_oldest_here | exact Hres].
  - exists ((key, entry) :: pre), k, e, post.
    split; [now apply first_oldest_later | exact Hres].
Qed.

Lemma delete_middle (pre post : list (string * CacheEntry V)) k e :
  JsMap.wf (pre ++ (k, e) :: post) ->
  JsMap.delete k (pre ++ (k, e) :: post) = pre ++ post.
Proof.
  unfold JsMap.wf, JsMap.keys. rewrite map_app. simpl. intros Hnd.
  apply NoDup_remove_2 in Hnd. rewrite in_app_iff in Hnd.
  unfold JsMap.delete. rewrite filter_app. simpl. rewrite String.eqb_refl. simpl.
  f_equal; apply JsMapFacts.delete_absent; tauto.
Qed.

(** What [evictOldestEntry] does to a map that is not empty: it deletes the
    first of the oldest entries when the key of that entry is not the empty
    string, and nothing when it is. *)
Lemma evictOldestEntry_spec s :
  JsMap.wf (cache s) -> cache s <> [] ->
  exists pre k e post,
    first_oldest (cache s) pre k e post /\
    (k <> EmptyString -> cache (evictOldestEntry s) = pre ++ post) /\
    (k = EmptyString -> evictOldestEntry s = s).
Proof.
  intros Hwf Hne.
  destruct (oldest_scan_first_oldest Hne) as (pre & k & e & post & Hfo & Hscan).
  exists pre, k, e, post. split; [exact Hfo|].
  unfold evictOldestEntry. rewrite Hscan. simpl.
  destruct (String.eqb_spec k EmptyString) as [->|Hk]; simpl.
  - split; [congruence | reflexivity].
  - split; [|contradiction]. intros _.
    destruct Hfo as (Hit & _). rewrite Hit in Hwf |- *. now apply delete_middle.
Qed.

Lemma size_evictOldestEntry s :
  JsMap.wf (cache s) -> cache s <> [] -> ~ In EmptyString (JsMap.keys (cache s)) ->
  S (JsMap.size (cache (evictOldestEntry s))) = JsMap.size (cache s).
Proof.
  intros Hwf Hne Hnokey.
  destruct (@evictOldestEntry_spec s Hwf Hne) as (pre & k & e & post & Hfo & Hdel & _).
  destruct Hfo as (Hit & _).
  assert (Hk : k <> EmptyString).
  { intros ->. apply Hnokey. rewrite Hit. unfold JsMap.keys.
    rewrite map_app. apply in_or_app. right. now left. }
  rewrite (Hdel Hk), Hit. unfold JsMap.size. rewrite !length_app. simpl. lia.
Qed.

Lemma keys_evictOldestEntry s k :
  In k (JsMap.keys (cache (evictOldestEntry s))) -> In k (JsMap.keys (cache s)).
Proof.
  unfold evictOldestEntry.
  destruct (oldest_scan (cache s) None None) as [k0|]; [|auto].
  destruct (truthy_key (Some k0)); [|auto].
  simpl. intros Hin. now apply JsMapFacts.keys_delete in Hin.
Qed.

End Facts.

End EvictionFacts.

(* ------------------------------------------------------------------ *)
(** ** Sequences of calls: counters and the size bound *)

Module CallsFacts.

Import CacheService Calls Props.

Section Facts.
Context {V : Type}.
Implicit Types (s : CacheService.t V) (call : Z * Op V) (calls : list (Z * Op V)).

Lemma stats_get now key s :
  stats (fst (get now key s)) =
    {| stats_hits := S (stats_hits (stats s)); stats_misses := stats_misses (stats s) |} \/
  stats (fst (get now key s)) =
    {| stats_hits := stats_hits (stats s); stats_misses := S (stats_misses (stats s)) |}.
Proof.
  unfold get. destruct (JsMap.get key (cache s)) as [entry|]; [|now right].
  destruct (isExpired now entry); [now right | now left].
Qed.

Lemma lookups_get now key s : lookups (fst (get now key s)) = S (lookups s).
Proof.
  unfold lookups. destruct (stats_get now key s) as [-> | ->]; simpl; lia.
Qed.

Lemma stats_has now key s : stats (fst (has now key s)) = stats s.
Proof.
  unfold has. destruct (JsMap.get key (cache s)) as [entry|]; [|reflexivity].
  now destruct (isExpired now entry).
Qed.

Lemma stats_delete key s : stats (fst (delete key s)) = stats s.
Proof. reflexivity. Qed.

Lemma lookups_run calls : forall s n,
  lookups s = n -> lookups (run s calls) = gets_since_clear n calls.
Proof.
  unfold run. induction calls as [|[now op] calls IH]; intros s n Hn; simpl.
  - exact Hn.
  - destruct op; apply IH; unfold step; cbn [fst snd].
    + now rewrite lookups_get, Hn.
    + unfold lookups. now rewrite CacheFacts.stats_set.
    + unfold lookups. now rewrite stats_has.
    + exact Hn.
    + reflexivity.
    + unfold lookups. now rewrite CacheFacts.stats_cleanup.
Qed.

(** *** Unique keys are an invariant of the calls *)

Lemma wf_get now key s : JsMap.wf (cache s) -> JsMap.wf (cache (fst (get now key s))).
Proof.
  intros Hwf. unfold get. destruct (JsMap.get key (cache s)) as [entry|]; [|exact Hwf].
  destruct (isExpired now entry); [|exact Hwf]. now apply JsMapFacts.wf_delete.
Qed.

Lemma wf_has now key s : JsMap.wf (cache s) -> JsMap.wf (cache (fst (has now key s))).
Proof.
  intros Hwf. unfold has. destruct (JsMap.get key (cache s)) as [entry|]; [|exact Hwf].
  destruct (isExpired now entry); [|exact Hwf]. now apply JsMapFacts.wf_delete.
Qed.

Lemma wf_after_set now key v options s :
  JsMap.wf (cache s) -> JsMap.wf (cache (fst (set now key v options s))).
Proof.
  intros Hwf. rewrite CacheFacts.cache_set. apply JsMapFacts.wf_set.
  unfold before_insert.
  destruct (maxSize <=? JsMap.size (cache s))%nat; [|exact Hwf].
  now apply CacheFacts.wf_evictOldestEntry.
Qed.

Lemma wf_step s call : JsMap.wf (cache s) -> JsMap.wf (cache (step s call)).
Proof.
  intros Hwf. destruct call as [now op]. unfold step. simpl fst; simpl snd.
  destruct op.
  - now apply wf_get.
  - now apply wf_after_set.
  - now apply wf_has.
  - now apply JsMapFacts.wf_delete.
  - apply JsMapFacts.wf_empty.
  - rewrite CacheFacts.cache_cleanup by exact Hwf. now apply CacheFacts.wf_filter.
Qed.

Lemma wf_run calls : forall s, JsMap.wf (cache s) -> JsMap.wf (cache (run s calls)).
Proof.
  unfold run. induction calls as [|call calls IH]; intros s Hwf; simpl; [exact Hwf|].
  apply IH. now apply wf_step.
Qed.

(** Every service reached from the constructed one has unique keys. *)
Lemma wf_reachable calls : JsMap.wf (cache (run (@create V) calls)).
Proof. apply wf_run. apply JsMapFacts.wf_empty. Qed.

(** *** The size bound, for keys other than the empty string *)

Lemma bounded_shrink s (m : JsMap.t (CacheEntry V)) :
  bounded s -> JsMap.wf m ->
  (forall k, In k (JsMap.keys m) -> In k (JsMap.keys (cache s))) ->
  JsMap.size m <= JsMap.size (cache s) ->
  bounded (with_cache s m).
Proof.
  intros (Hwf & Hkeys & Hsize) Hwfm Hsub Hle. repeat split; simpl; auto. lia.
Qed.

Lemma bounded_before_insert s :
  bounded s ->
  JsMap.wf (cache (before_insert s)) /\
  ~ In EmptyString (JsMap.keys (cache (before_insert s))) /\
  JsMap.size (cache (before_insert s)) < maxSize.
Proof.
  intros (Hwf & Hkeys & Hsize). unfold before_insert.
  destruct (Nat.leb_spec maxSize (JsMap.size (cache s))) as [Hfull|Hroom].
  - assert (Hne : cache s <> []).
    { intros Hnil. rewrite Hnil in Hfull. unfold maxSize in Hfull. simpl in Hfull. lia. }
    pose proof (@EvictionFacts.size_evictOldestEntry V s Hwf Hne Hkeys) as Hev.
    split; [|split].
    + now apply CacheFacts.wf_evictOldestEntry.
    + intros Hin. apply Hkeys. now apply EvictionFacts.keys_evictOldestEntry.
    + lia.
  - auto.
Qed.

Lemma bounded_set now key v options s :
  key <> EmptyString -> bounded s -> bounded (fst (set now key v options s)).
Proof.
  intros Hkey Hb. destruct (bounded_before_insert Hb) as (Hwf1 & Hkeys1 & Hsize1).
  unfold bounded. rewrite CacheFacts.cache_set. split; [|split].
  - now apply JsMapFacts.wf_set.
  - intros Hin. apply JsMapFacts.keys_set in Hin. destruct Hin as [Heq|Hin]; auto.
  - rewrite JsMapFacts.size_set.
    destruct (JsMap.has key (cache (before_insert s))); lia.
Qed.

Lemma bounded_delete key s : bounded s -> bounded (fst (delete key s)).
Proof.
  intros Hb. unfold delete. simpl fst. apply bounded_shrink; auto.
  - apply JsMapFacts.wf_delete, Hb.
  - intros k Hin. now apply JsMapFacts.keys_delete in Hin.
  - apply JsMapFacts.size_delete_le.
Qed.

Lemma bounded_get now key s : bounded s -> bounded (fst (get now key s)).
Proof.
  intros Hb. unfold get. destruct (JsMap.get key (cache s)) as [entry|]; [|exact Hb].
  destruct (isExpired now entry); [|exact Hb].
  apply (bounded_delete key) in Hb. exact Hb.
Qed.

Lemma bounded_has now key s : bounded s -> bounded (fst (has now key s)).
Proof.
  intros Hb. unfold has. destruct (JsMap.get key (cache s)) as [entry|]; [|exact Hb].
  destruct (isExpired now entry); [|exact Hb].
  apply (bounded_delete key) in Hb. exact Hb.
Qed.

Lemma bounded_cleanup now s : bounded s -> bounded (fst (cleanup now s)).
Proof.
  intros Hb. pose proof Hb as (Hwf & _ & _).
  assert (Hc : fst (cleanup now s) = with_cache s (cache (fst (cleanup now s)))).
  { unfold cleanup. now destruct (cleanup_loop now (cache s) (cache s) 0). }
  rewrite Hc, CacheFacts.cache_cleanup by exact Hwf.
  apply bounded_shrink; auto.
  - now apply CacheFacts.wf_filter.
  - unfold JsMap.keys. intros k Hin. apply in_map_iff in Hin.
    destruct Hin as [p [Hp Hin]]. apply filter_In in Hin.
    apply in_map_iff. exists p. tauto.
  - apply filter_length_le.
Qed.

Lemma bounded_create : bounded (@create V).
Proof.
  split; [apply JsMapFacts.wf_empty | split; [simpl; tauto | unfold maxSize; simpl; lia]].
Qed.

Lemma bounded_run calls : forall s,
  Forall (fun key => key <> EmptyString) (set_keys calls) ->
  bounded s -> bounded (run s calls).
Proof.
  unfold run. induction calls as [|[now op] calls IH]; intros s Hkeys Hb; simpl; [exact Hb|].
  destruct op; simpl in Hkeys; unfold step; cbn [fst snd].
  - apply IH; [exact Hkeys | now apply bounded_get].
  - inversion Hkeys; subst. apply IH; [assumption | now apply bounded_set].
  - apply IH; [exact Hkeys | now apply bounded_has].
  - apply IH; [exact Hkeys | now apply bounded_delete].
  - apply IH; [exact Hkeys | apply bounded_create].
  - apply IH; [exact Hkeys | now apply bounded_cleanup].
Qed.

(** As long as no call stores under the empty string, the service never
    holds more than [maxSize] entries. *)
Lemma size_bound_nonempty_keys calls :
  Forall (fun key => key <> EmptyString) (set_keys calls) ->
  size (getStats (run (@create V) calls)) <= maxSize.
Proof.
  intros Hkeys. apply (bounded_run calls Hkeys bounded_create).
Qed.

(** A [set] on a full cache, whatever the key: the first of the oldest
    entries goes, unless its key is the empty string, and the new entry is
    written into what is left. *)
Lemma set_when_full now key v options s :
  JsMap.wf (cache s) -> maxSize <= JsMap.size (cache s) ->
  exists pre k e post,
    first_oldest (cache s) pre k e post /\
    (k <> EmptyString ->
     cache (fst (set now key v options s)) =
     JsMap.set key (mkEntry v (now + ttl_or_default options) now) (pre ++ post)).
Proof.
  intros Hwf Hfull.
  assert (Hne : cache s <> []).
  { intros Hnil. rewrite Hnil in Hfull. unfold maxSize in Hfull. simpl in Hfull. lia. }
  destruct (@EvictionFacts.evictOldestEntry_spec V s Hwf Hne)
    as (pre & k & e & post & Hfo & Hdel & _).
  exists pre, k, e, post. split; [exact Hfo|]. intros Hk.
  rewrite CacheFacts.cache_set. unfold before_insert.
  destruct (Nat.leb_spec maxSize (JsMap.size (cache s))); [|lia].
  now rewrite (Hdel Hk).
Qed.

End Facts.

(** *** The claims about sequences of calls *)

(** C5: starting from the constructed service, or from any service just
    cleared, [hits + misses] as reported by [getStats] is the number of [get]
    calls issued since the last [clear]; a [get] adds one to exactly one of
    the two counters, [has], [set], [delete] and [cleanup] change neither,
    and [clear] sets both to zero. *)
Theorem hits_plus_misses_counts_gets (V : Type) :
  (forall calls : list (Z * Op V),
     hits (getStats (run create calls)) + misses (getStats (run create calls))
     = gets_since_clear 0 calls) /\
  (forall (s0 : CacheService.t V) calls,
     hits (getStats (run (fst (clear s0)) calls))
     + misses (getStats (run (fst (clear s0)) calls))
     = gets_since_clear 0 calls) /\
  (forall now key (s : CacheService.t V),
     let s' := fst (get now key s) in
     (hits (getStats s') = S (hits (getStats s)) /\
      misses (getStats s') = misses (getStats s)) \/
     (hits (getStats s') = hits (getStats s) /\
      misses (getStats s') = S (misses (getStats s)))) /\
  (forall now key (s : CacheService.t V), stats (fst (has now key s)) = stats s) /\
  (forall now key v options (s : CacheService.t V),
     stats (fst (set now key v options s)) = stats s) /\
  (forall key (s : CacheService.t V), stats (fst (delete key s)) = stats s) /\
  (forall now (s : CacheService.t V), stats (fst (cleanup now s)) = stats s) /\
  (forall s : CacheService.t V,
     hits (getStats (fst (clear s))) = 0 /\ misses (getStats (fst (clear s))) = 0).
Proof.
  split; [|split; [|split; [|split; [|split; [|split; [|split]]]]]].
  - intros calls. apply (@lookups_run V calls create 0). reflexivity.
  - intros s0 calls. apply (@lookups_run V calls (fst (clear s0)) 0). reflexivity.
  - intros now key s s'. subst s'. unfold getStats; cbn [hits misses].
    destruct (stats_get now key s) as [-> | ->]; simpl; auto.
  - intros. apply stats_has.
  - intros. apply CacheFacts.stats_set.
  - intros. apply stats_delete.
  - intros. apply CacheFacts.stats_cleanup.
  - intros s. split; reflexivity.
Qed.

(** C2, the code at an input that breaks the bound: [maxSize + 1 = 101]
    different keys are stored one after the other, the first of them the
    empty string. When the last one arrives the cache is full and its oldest
    entry is the one under the empty string, which the eviction does not
    delete: all 101 entries are there after the [set]. *)
Theorem set_exceeds_maxSize_when_oldest_key_is_empty :
  let s := run create (inserts 0 101 7) in
  NoDup (map key_of_nat (seq 0 101)) /\
  size (getStats s) = 101 /\
  maxSize < size (getStats s) /\
  JsMap.keys (cache s) = map key_of_nat (seq 0 101) /\
  option_map createdAt (JsMap.get EmptyString (cache s)) = Some 0%Z.
Proof.
  cbv zeta. split; [|vm_compute; repeat split; lia].
  assert (Hinj : forall n m, key_of_nat n = key_of_nat m -> n = m).
  { induction n as [|n IH]; destruct m as [|m]; simpl; try discriminate; auto.
    intros [= H]. f_equal. auto. }
  apply NoDup_map_NoDup_ForallPairs; [intros n m _ _; apply Hinj | apply seq_NoDup].
Qed.

(** The same 101 calls under keys none of which is empty ([key_of_nat 1] to
    [key_of_nat 101]) leave 100 entries, the oldest one gone. *)
Example set_keeps_maxSize_with_nonempty_keys :
  let s := run create (inserts 1 101 7) in
  size (getStats s) = 100 /\
  JsMap.keys (cache s) = map key_of_nat (seq 2 100).
Proof. vm_compute. split; reflexivity. Qed.

(** C10, the code at an input where the overwrite evicts nothing: the cache
    holds [maxSize = 100] entries, the oldest of them under the empty string;
    ["k"] is present and is overwritten. [evictOldestEntry] runs and settles
    on the empty key, which its truthiness test rejects, so the oldest entry
    stays and the cache still holds all 100 keys. *)
Theorem overwrite_in_full_cache_keeps_oldest_empty_key :
  let s := run create (inserts 0 100 7) in
  let s' := fst (set 200 "k" 8 None s) in
  size (getStats s) = maxSize /\
  JsMap.has "k" (cache s) = true /\
  oldest_scan (cache s) None None = Some EmptyString /\
  option_map createdAt (JsMap.get EmptyString (cache s')) = Some 0%Z /\
  JsMap.keys (cache s') = JsMap.keys (cache s) /\
  JsMap.get "k" (cache s') = Some (mkEntry 8 600200 200).
Proof. vm_compute. repeat split; reflexivity. Qed.

(** With keys that are not empty the overwrite of a present key in a full
    cache does evict: [key_of_nat 2] is overwritten, and the oldest entry,
    under [key_of_nat 1], is gone; 99 entries are left. *)
Example overwrite_in_full_cache_evicts_other_key :
  let s := run create (inserts 1 100 7) in
  let s' := fst (set 200 (key_of_nat 2) 8 None s) in
  size (getStats s) = maxSize /\
  JsMap.has (key_of_nat 1) (cache s') = false /\
  JsMap.get (key_of_nat 2) (cache s') = Some (mkEntry 8 600200 200) /\
  size (getStats s') = 99.
Proof. vm_compute. repeat split; reflexivity. Qed.

End CallsFacts.

(* ------------------------------------------------------------------ *)
(** ** [generateKey] *)

Module KeyFacts.

Import CacheService Props.

Lemma key_le_trans a b c : key_le a b -> key_le b c -> key_le a c.
Proof.
  unfold key_le, String.leb. intros Hab Hbc.
  destruct (String.compare a b) eqn:Eab; [|clear Hab|discriminate].
  - apply String.compare_eq_iff in Eab. now subst b.
  - destruct (String.compare b c) eqn:Ebc; [|clear Hbc|discriminate].
    + apply String.compare_eq_iff in Ebc. subst c. now rewrite Eab.
    + apply String_as_OT.cmp_lt in Eab, Ebc.
      pose proof (String_as_OT.lt_trans a b c Eab Ebc) as Hac.
      apply String_as_OT.cmp_lt in Hac. unfold String_as_OT.cmp in Hac.
      now rewrite Hac.
Qed.

Lemma insert_key_perm k ks : Permutation (insert_key k ks) (k :: ks).
Proof.
  induction ks as [|k' ks IH]; simpl; [reflexivity|].
  destruct (String.leb k k'); [reflexivity|].
  rewrite IH. apply perm_swap.
Qed.

Lemma sort_keys_perm ks : Permutation (sort_keys ks) ks.
Proof.
  induction ks as [|k ks IH]; simpl; [reflexivity|].
  rewrite insert_key_perm. now apply perm_skip.
Qed.

Lemma insert_key_sorted k ks :
  StronglySorted key_le ks -> StronglySorted key_le (insert_key k ks).
Proof.
  induction 1 as [|k' ks Hs IH Hall]; simpl.
  - repeat constructor.
  - destruct (String.leb k k') eqn:Hle.
    + constructor; [now constructor|].
      constructor; [exact Hle|].
      eapply Forall_impl; [|exact Hall]. intros c Hc. now apply key_le_trans with k'.
    + constructor; [exact IH|].
      assert (Hk : key_le k' k).
      { destruct (String.leb_total k k') as [H|H]; [congruence | exact H]. }
      eapply Permutation_Forall; [symmetry; apply insert_key_perm|].
      now constructor.
Qed.

Lemma sort_keys_sorted ks : StronglySorted key_le (sort_keys ks).
Proof.
  induction ks as [|k ks IH]; simpl; [constructor | now apply insert_key_sorted].
Qed.

(** A list has one sorted arrangement. *)
Lemma sorted_unique : forall l1 l2,
  StronglySorted key_le l1 -> StronglySorted key_le l2 ->
  Permutation l1 l2 -> l1 = l2.
Proof.
  induction l1 as [|a l1 IH]; intros l2 H1 H2 Hp.
  - now apply Permutation_nil in Hp.
  - destruct l2 as [|b l2]; [symmetry in Hp; now apply Permutation_nil in Hp|].
    inversion H1 as [|? ? Hs1 Ha]; subst. inversion H2 as [|? ? Hs2 Hb]; subst.
    assert (Hab : a = b).
    { assert (Hina : In a (b :: l2)) by (eapply Permutation_in; [exact Hp | now left]).
      assert (Hinb : In b (a :: l1))
        by (eapply Permutation_in; [symmetry; exact Hp | now left]).
      destruct Hina as [Heq|Hina]; [now symmetry|].
      destruct Hinb as [Heq|Hinb]; [exact Heq|].
      rewrite Forall_forall in Ha, Hb.
      apply String.leb_antisym; [now apply Ha | now apply Hb]. }
    subst b. f_equal. apply IH; auto. now apply Permutation_cons_inv with a.
Qed.

Lemma sort_keys_order_independent ks ks' :
  Permutation ks ks' -> sort_keys ks = sort_keys ks'.
Proof.
  intros Hp. apply sorted_unique; try apply sort_keys_sorted.
  now rewrite !sort_keys_perm.
Qed.

Section Params.
Context {V : Type}.
Variable JSON_stringify : V -> string.
Implicit Types (p : JsMap.t V).

Lemma get_order_independent p p' k :
  JsMap.wf p -> Permutation p p' -> JsMap.get k p = JsMap.get k p'.
Proof.
  intros Hwf Hp.
  assert (Hwf' : JsMap.wf p').
  { unfold JsMap.wf, JsMap.keys in *. eapply Permutation_NoDup; [|exact Hwf].
    now apply Permutation_map. }
  destruct (JsMap.get k p) as [v|] eqn:Hg.
  - symmetry. apply JsMapFacts.In_get; [exact Hwf'|].
    eapply Permutation_in; [exact Hp|]. now apply JsMapFacts.get_In.
  - symmetry. apply JsMapFacts.get_None_iff. apply JsMapFacts.get_None_iff in Hg.
    intros Hin. apply Hg. unfold JsMap.keys in *.
    eapply Permutation_in; [|exact Hin]. apply Permutation_map. now symmetry.
Qed.

Lemma properties_of_own_keys p (q : JsMap.t V) :
  JsMap.wf p -> incl q p -> flat_map (property p) (JsMap.keys q) = q.
Proof.
  intros Hwf. induction q as [|[k v] q IH]; intros Hincl; simpl; [reflexivity|].
  unfold property at 1. rewrite (@JsMapFacts.In_get V k v p Hwf) by (apply Hincl; now left).
  simpl. f_equal. apply IH. intros x Hx. apply Hincl. now right.
Qed.

Lemma properties_keys p ks :
  incl ks (JsMap.keys p) -> map fst (flat_map (property p) ks) = ks.
Proof.
  induction ks as [|k ks IH]; intros Hincl; simpl; [reflexivity|].
  rewrite map_app, IH by (intros x Hx; apply Hincl; now right).
  unfold property. destruct (JsMap.get k p) eqn:Hg; [reflexivity|].
  apply JsMapFacts.get_None_iff in Hg. exfalso. apply Hg, Hincl. now left.
Qed.

Lemma properties_serialized p ks :
  incl ks (JsMap.keys p) ->
  map (key_value_pair JSON_stringify p) ks
  = map (serialize JSON_stringify) (flat_map (property p) ks).
Proof.
  induction ks as [|k ks IH]; intros Hincl; simpl; [reflexivity|].
  rewrite map_app, <- IH by (intros x Hx; apply Hincl; now right).
  unfold property, key_value_pair. destruct (JsMap.get k p) eqn:Hg; [reflexivity|].
  apply JsMapFacts.get_None_iff in Hg. exfalso. apply Hg, Hincl. now left.
Qed.

(** C7, as amended: [generateKey] is a function of the base identifier and
    of the set of parameters, whatever the order they are given in. For a
    record with at least one parameter the key is the base identifier, [?],
    and the parameters sorted by name, each as [name=JSON(value)], joined by
    [&]. For the empty record and for no record the key is the base
    identifier alone, without the [?]. *)
Theorem generateKey_order_independent (url : string) p :
  JsMap.wf p ->
  (forall p', Permutation p p' ->
     generateKey JSON_stringify url (Some p) = generateKey JSON_stringify url (Some p')) /\
  (p <> [] ->
   exists sorted,
     Permutation sorted p /\
     StronglySorted key_le (map fst sorted) /\
     generateKey JSON_stringify url (Some p)
     = (url ++ "?" ++ String.concat "&" (map (serialize JSON_stringify) sorted))%string) /\
  generateKey JSON_stringify url (Some []) = url /\
  generateKey JSON_stringify url None = url.
Proof.
  intros Hwf. split; [|split; [|split; reflexivity]].
  - intros p' Hp. unfold generateKey.
    assert (Hk : Permutation (JsMap.keys p) (JsMap.keys p'))
      by now apply Permutation_map.
    rewrite (Permutation_length Hk), (sort_keys_order_independent Hk).
    destruct (0 <? List.length (JsMap.keys p'))%nat; [|reflexivity].
    do 3 f_equal. apply map_ext. intros k. unfold key_value_pair.
    now rewrite (get_order_independent k Hwf Hp).
  - intros Hne.
    assert (Hincl : incl (sort_keys (JsMap.keys p)) (JsMap.keys p)).
    { intros k Hin. eapply Permutation_in; [apply sort_keys_perm | exact Hin]. }
    exists (flat_map (property p) (sort_keys (JsMap.keys p))). split; [|split].
    + rewrite (sort_keys_perm (JsMap.keys p)).
      rewrite properties_of_own_keys; [reflexivity | exact Hwf | apply incl_refl].
    + rewrite properties_keys by exact Hincl. apply sort_keys_sorted.
    + unfold generateKey. destruct p as [|kv p]; [congruence|].
      cbn [JsMap.keys map List.length Nat.ltb Nat.leb].
      now rewrite <- properties_serialized by exact Hincl.
Qed.

End Params.

(** C7 as stated fails on the empty record: the key of ["u"] and [{}] is
    ["u"], not ["u"] followed by [?] and the (empty) list of parameters. *)
Lemma generateKey_empty_record_has_no_separator :
  generateKey stringify_digit "u" (Some []) = "u"%string /\
  generateKey stringify_digit "u" (Some []) <>
    ("u" ++ "?" ++ String.concat "&" (map (serialize stringify_digit) []))%string.
Proof. split; [reflexivity | discriminate]. Qed.

End KeyFacts.

(* ------------------------------------------------------------------ *)
(** ** The interceptor *)

Module InterceptorFacts.

Import CacheService Interceptor Props.

Implicit Types (s : CacheService.t JsValue) (req : HttpRequest)
  (next : HttpRequest -> Observable) (w : World).

Lemma tap_stores_responses req deliveries : forall s,
  fold_left (tap_callback req) deliveries s =
  fold_left (store_response (urlWithParams req)) (responses deliveries) s.
Proof.
  induction deliveries as [|[t v] rest IH]; intros s; simpl; [reflexivity|].
  unfold tap_callback at 2. simpl.
  destruct (instanceof_HttpResponse v) as [r|]; simpl; apply IH.
Qed.

Lemma miss_path now req next w :
  String.eqb (method req) "GET" = true ->
  cached now (urlWithParams req) (cacheService w) = false ->
  cachingInterceptor now req next w =
  call_next_and_tap req next
    (fst (CacheService.get now (urlWithParams req) (cacheService w))) (calls w).
Proof.
  unfold cachingInterceptor, cached. intros -> Hmiss. simpl negb. cbv iota.
  destruct (CacheService.get now (urlWithParams req) (cacheService w)) as [s [v|]];
    simpl in *; [|reflexivity].
  now rewrite Hmiss.
Qed.

Lemma hit_path now req next w v :
  String.eqb (method req) "GET" = true ->
  snd (CacheService.get now (urlWithParams req) (cacheService w)) = Some v ->
  truthy v = true ->
  cachingInterceptor now req next w =
  ({| cacheService := fst (CacheService.get now (urlWithParams req) (cacheService w));
      calls := calls w |}, rx_of now v).
Proof.
  unfold cachingInterceptor. intros -> Hget Hv. simpl negb. cbv iota.
  destruct (CacheService.get now (urlWithParams req) (cacheService w)) as [s o].
  simpl in *. subst o. now rewrite Hv.
Qed.

(** [get] never adds an entry, and changes nothing in the map when the key
    is not in it. *)
Lemma get_only_deletes now key s k (entry : CacheEntry JsValue) :
  JsMap.get k (cache (fst (CacheService.get now key s))) = Some entry ->
  JsMap.get k (cache s) = Some entry.
Proof.
  unfold CacheService.get. destruct (JsMap.get key (cache s)) as [e|] eqn:Hg; [|auto].
  destruct (isExpired now e); [|auto]. simpl.
  destruct (String.eqb_spec key k) as [->|Hne].
  - now rewrite JsMapFacts.get_delete_same.
  - now rewrite JsMapFacts.get_delete_other.
Qed.

Lemma get_absent_keeps_cache now key s :
  JsMap.get key (cache s) = None ->
  cache (fst (CacheService.get now key s)) = cache s.
Proof. unfold CacheService.get. now intros ->. Qed.

(** C8: a request whose method is not [GET] goes to the continuation as it
    is, the continuation is invoked once, its observable is the result, and
    the service (entries and counters) is the one before the call, whatever
    the continuation delivers. *)
Theorem non_GET_passes_through now req next w :
  method req <> "GET"%string ->
  cachingInterceptor now req next w =
  ({| cacheService := cacheService w; calls := calls w ++ [req] |}, next req).
Proof.
  intros Hm. unfold cachingInterceptor.
  destruct (String.eqb_spec (method req) "GET"); [contradiction | reflexivity].
Qed.

(** A clone has the fields of the response it is taken of. *)
Lemma clone_same (r : HttpResponse) : clone r = r.
Proof. destruct r. reflexivity. Qed.

(** C3: a [GET] request whose key has no truthy cached value. The
    continuation is invoked exactly once, with the request, and its
    observable is passed on. When it delivers no completed response (only
    progress events, or an error) nothing is stored: the service is the one
    the lookup left. When it delivers a completed response, a copy of the
    last one is stored under the key of the request with the default TTL of
    ten minutes, counted from the delivery; and the same [GET] request issued
    again no later than that expiry gets an observable that delivers that
    response, with the fields of the one the continuation delivered, and
    nothing else, and then completes, without any further invocation of the
    continuation. *)
Theorem GET_miss_invokes_once_and_caches now req next w :
  method req = "GET"%string ->
  cached now (urlWithParams req) (cacheService w) = false ->
  let key := urlWithParams req in
  let w1 := fst (cachingInterceptor now req next w) in
  calls w1 = calls w ++ [req] /\
  snd (cachingInterceptor now req next w) = next req /\
  (responses (emitted (next req)) = [] ->
   cacheService w1 = fst (CacheService.get now key (cacheService w))) /\
  (forall earlier t r,
     responses (emitted (next req)) = earlier ++ [(t, r)] ->
     JsMap.get key (cache (cacheService w1))
     = Some (mkEntry (HttpResponseEvent (clone r)) (t + 600000) t) /\
     forall now2 req2 next2,
       method req2 = "GET"%string -> urlWithParams req2 = key ->
       (now2 <= t + 600000)%Z ->
       emitted (snd (cachingInterceptor now2 req2 next2 w1))
       = [(now2, HttpResponseEvent r)] /\
       completion (snd (cachingInterceptor now2 req2 next2 w1)) = Complete /\
       calls (fst (cachingInterceptor now2 req2 next2 w1)) = calls w1).
Proof.
  intros Hm Hmiss key w1. subst key w1.
  apply String.eqb_eq in Hm. rewrite (miss_path now req next w Hm Hmiss).
  unfold call_next_and_tap. cbn [fst snd calls cacheService].
  rewrite tap_stores_responses.
  split; [reflexivity | split; [reflexivity | split]].
  - now intros ->.
  - intros earlier t r ->. rewrite fold_left_app. cbn [fold_left].
    unfold store_response at 1. cbn [fst snd].
    match goal with |- JsMap.get _ (cache (fst (CacheService.set _ _ _ _ ?s0))) = _ /\ _ =>
      set (s1 := s0) end.
    assert (Hstored :
      JsMap.get (urlWithParams req)
        (cache (fst (CacheService.set t (urlWithParams req)
                       (HttpResponseEvent (clone r)) None s1)))
      = Some (mkEntry (HttpResponseEvent (clone r)) (t + 600000) t)).
    { apply CacheFacts.get_after_set. }
    split; [exact Hstored|].
    intros now2 req2 next2 Hm2 Hurl Hnow2. apply String.eqb_eq in Hm2.
    set (w1 := {| cacheService := _; calls := _ |}).
    assert (Hget2 : snd (CacheService.get now2 (urlWithParams req2) (cacheService w1))
                    = Some (HttpResponseEvent (clone r))).
    { subst w1. cbn [cacheService]. rewrite Hurl. unfold CacheService.get.
      unfold store_response. cbn [fst snd].
      rewrite Hstored. unfold isExpired. cbn [expiry value].
      destruct (Z.ltb_spec (t + 600000) now2); [lia | reflexivity]. }
    rewrite (hit_path now2 req2 next2 w1 Hm2 Hget2 eq_refl).
    cbn [snd fst rx_of emitted completion calls]. rewrite clone_same.
    split; [reflexivity | split; reflexivity].
Qed.

(** C9: a [GET] request on a miss whose continuation fails with [e]. The
    result is the continuation's own observable, so it ends in the same
    error [e]; nothing is stored: the service is the one the lookup left, no
    key maps to an entry it did not map to before the call, and when the key
    of the request was not in the map the map is the one before the call. *)
Theorem GET_miss_failure_propagates_and_stores_nothing now req next w e :
  method req = "GET"%string ->
  cached now (urlWithParams req) (cacheService w) = false ->
  fails (next req) e ->
  let key := urlWithParams req in
  let w1 := fst (cachingInterceptor now req next w) in
  let out := snd (cachingInterceptor now req next w) in
  out = next req /\
  completion out = Error e /\
  cacheService w1 = fst (CacheService.get now key (cacheService w)) /\
  (forall k entry,
     JsMap.get k (cache (cacheService w1)) = Some entry ->
     JsMap.get k (cache (cacheService w)) = Some entry) /\
  (JsMap.get key (cache (cacheService w)) = None ->
   cache (cacheService w1) = cache (cacheService w)).
Proof.
  intros Hm Hmiss [Herr Hnone] key w1 out. subst key w1 out.
  apply String.eqb_eq in Hm. rewrite (miss_path now req next w Hm Hmiss).
  unfold call_next_and_tap. cbn [fst snd calls cacheService].
  rewrite tap_stores_responses, Hnone. cbn [fold_left].
  split; [reflexivity | split; [exact Herr | split; [reflexivity | split]]].
  - intros k entry. apply get_only_deletes.
  - apply get_absent_keeps_cache.
Qed.

End InterceptorFacts.

(* ------------------------------------------------------------------ *)
(** ** The properties at concrete inputs *)

Module Scenarios.

Import CacheService Calls Interceptor Props Examples.
Import CacheFacts CallsFacts KeyFacts InterceptorFacts.

(** C1 as stated fails for a ttl of [0]: [set("k", 7, {ttl: 0})] at time 1000
    stores an entry that expires at [1000 + 600000], not at [1000 + 0]. *)
Lemma set_ttl_zero_takes_default :
  let s := fst (set 1000 "k" 7 (Some (mkOptions (Some 0%Z) None)) create) in
  JsMap.get "k" (cache s) = Some (mkEntry 7 (1000 + 600000) 1000) /\
  JsMap.get "k" (cache s) <> Some (mkEntry 7 (1000 + 0) 1000).
Proof. split; [reflexivity | discriminate]. Qed.

(** [set("x", 42, {ttl: 100})] at time 0: the entry expires at 100. *)
Lemma set_expiry_ttl_or_default_witness :
  (100 <> 0)%Z /\
  JsMap.get "x" (cache one_entry) = Some (mkEntry 42 100 0).
Proof.
  assert (H : (100 <> 0)%Z) by discriminate.
  split; [exact H|].
  exact (proj1 (@set_expiry_ttl_or_default nat 0%Z "x"%string 42 create) 100%Z None H).
Defined.

(** [set("x", 42, {ttl: 100})] at time 0; at time 50 [get("x")] is 42, at
    time 150 it is [null] and the entry is gone. *)
Lemma expired_entry_witness :
  JsMap.get "x" (cache one_entry) = Some (mkEntry 42 100 0) /\
  snd (get 50 "x" one_entry) = Some 42 /\
  snd (get 150 "x" one_entry) = None /\
  JsMap.get "x" (cache (fst (get 150 "x" one_entry))) = None /\
  snd (has 150 "x" one_entry) = false.
Proof.
  assert (Hentry : JsMap.get "x" (cache one_entry) = Some (mkEntry 42 100 0))
    by reflexivity.
  destruct (@expired_entry_not_returned_and_deleted nat 50%Z "x"%string one_entry _ Hentry)
    as (_ & _ & Hlive).
  destruct (@expired_entry_not_returned_and_deleted nat 150%Z "x"%string one_entry _ Hentry)
    as (_ & Hexpired & _).
  assert (H50 : ~ (50 > 100)%Z) by (intros H; discriminate H).
  assert (H150 : (150 > 100)%Z) by reflexivity.
  destruct (Hlive H50) as (Hget50 & _).
  destruct (Hexpired H150) as (Hget150 & Hgone & Hhas & _).
  repeat split; assumption.
Defined.

(** Three entries, two of them expired at time 50: [cleanup] returns 2 and
    leaves one entry. *)
Lemma cleanup_witness :
  JsMap.wf (cache three_entries) /\
  snd (cleanup 50 three_entries) = 2 /\
  JsMap.size (cache (fst (cleanup 50 three_entries))) + 2 = 3 /\
  stats (fst (cleanup 50 three_entries)) = stats three_entries.
Proof.
  assert (Hwf : JsMap.wf (cache three_entries)).
  { unfold three_entries. apply wf_reachable. }
  destruct (@cleanup_removes_stale_entries nat 50%Z three_entries Hwf)
    as (_ & Hcount & Hsize & Hstats).
  repeat split; assumption.
Defined.

(** [generateKey("u", {b:1,a:2})] and [generateKey("u", {a:2,b:1})]. *)
Lemma generateKey_order_independent_witness :
  JsMap.wf [("b"%string, 1); ("a"%string, 2)] /\
  generateKey stringify_digit "u" (Some [("b"%string, 1); ("a"%string, 2)])
  = generateKey stringify_digit "u" (Some [("a"%string, 2); ("b"%string, 1)]) /\
  generateKey stringify_digit "u" (Some [("b"%string, 1); ("a"%string, 2)])
  = "u?a=2&b=1"%string.
Proof.
  assert (Hwf : JsMap.wf [("b"%string, 1); ("a"%string, 2)]).
  { repeat constructor; simpl; intuition discriminate. }
  split; [exact Hwf|]. split; [|reflexivity].
  apply (proj1 (@generateKey_order_independent nat stringify_digit "u"%string _ Hwf)).
  apply perm_swap.
Defined.

(** A [POST] request: the continuation is invoked, the service is as new. *)
Lemma non_GET_witness :
  method post_user <> "GET"%string /\
  cachingInterceptor 0 post_user responding new_world
  = ({| cacheService := create; calls := [post_user] |}, responding post_user).
Proof.
  assert (H : method post_user <> "GET"%string) by discriminate.
  split; [exact H|]. exact (@non_GET_passes_through 0%Z post_user responding new_world H).
Defined.

(** A [GET] request on a new service, answered at time 9: one invocation of
    the continuation; the same request at time 20 is answered from the cache,
    and the continuation given then is not invoked. *)
Lemma GET_miss_witness :
  cached 0 (urlWithParams get_users) (cacheService new_world) = false /\
  calls (fst (cachingInterceptor 0 get_users responding new_world)) = [get_users] /\
  emitted (snd (cachingInterceptor 20 get_users failing
                  (fst (cachingInterceptor 0 get_users responding new_world))))
  = [(20%Z, HttpResponseEvent users_response)] /\
  completion (snd (cachingInterceptor 20 get_users failing
                     (fst (cachingInterceptor 0 get_users responding new_world))))
  = Complete /\
  calls (fst (cachingInterceptor 20 get_users failing
                (fst (cachingInterceptor 0 get_users responding new_world))))
  = [get_users].
Proof.
  assert (Hmiss : cached 0 (urlWithParams get_users) (cacheService new_world) = false)
    by reflexivity.
  destruct (@GET_miss_invokes_once_and_caches 0%Z get_users responding new_world
              eq_refl Hmiss) as (Hcalls & _ & _ & Hstored).
  destruct (Hstored [] 9%Z users_response eq_refl) as (_ & Hagain).
  assert (Hnow : (20 <= 9 + 600000)%Z) by (intros H; discriminate H).
  destruct (Hagain 20%Z get_users failing eq_refl eq_refl Hnow)
    as (Hemitted & Hcompletion & Hcalls2).
  split; [exact Hmiss|]. split; [exact Hcalls|]. split; [exact Hemitted|].
  split; [exact Hcompletion|].
  rewrite Hcalls2. exact Hcalls.
Defined.

(** A [GET] request on a new service whose continuation fails: the error
    comes out, the cache stays empty. *)
Lemma GET_failure_witness :
  fails (failing get_users) (HttpErrorResponse 500 "Internal Server Error") /\
  completion (snd (cachingInterceptor 0 get_users failing new_world))
  = Error (HttpErrorResponse 500 "Internal Server Error") /\
  cache (cacheService (fst (cachingInterceptor 0 get_users failing new_world))) = [].
Proof.
  assert (Hfails : fails (failing get_users) (HttpErrorResponse 500 "Internal Server Error"))
    by (split; reflexivity).
  destruct (@GET_miss_failure_propagates_and_stores_nothing 0%Z get_users failing new_world
              _ eq_refl eq_refl Hfails) as (_ & Herr & _ & _ & Hsame).
  split; [exact Hfails|]. split; [exact Herr|]. exact (Hsame eq_refl).
Defined.

End Scenarios.

(* ------------------------------------------------------------------ *)
(** ** More about the service: round trips, deletion, size, sweeps *)

Unset Implicit Arguments.

Module CacheLaws.

Import CacheService Calls Props.

Section Laws.
Context {V : Type}.
Implicit Types (s : CacheService.t V) (key : string) (now : Z).

Lemma get_delete_implies (m : JsMap.t (CacheEntry V)) k0 k e :
  JsMap.get k (JsMap.delete k0 m) = Some e -> JsMap.get k m = Some e.
Proof.
  destruct (String.eqb_spec k0 k) as [->|Hne].
  - now rewrite JsMapFacts.get_delete_same.
  - now rewrite JsMapFacts.get_delete_other.
Qed.

Lemma get_evict_implies s k e :
  JsMap.get k (cache (evictOldestEntry s)) = Some e -> JsMap.get k (cache s) = Some e.
Proof.
  unfold evictOldestEntry.
  destruct (oldest_scan (cache s) None None) as [k0|]; [|auto].
  destruct (truthy_key (Some k0)); [|auto]. apply get_delete_implies.
Qed.

Lemma size_evict_le s :
  JsMap.size (cache (evictOldestEntry s)) <= JsMap.size (cache s).
Proof.
  unfold evictOldestEntry.
  destruct (oldest_scan (cache s) None None) as [k0|]; [|auto].
  destruct (truthy_key (Some k0)); [|auto]. apply JsMapFacts.size_delete_le.
Qed.

Lemma size_before_insert_le s :
  JsMap.size (cache (before_insert s)) <= JsMap.size (cache s).
Proof.
  unfold before_insert.
  destruct (maxSize <=? JsMap.size (cache s))%nat; [apply size_evict_le | auto].
Qed.

Lemma filter_none {A : Type} (f : A -> bool) (l : list A) :
  (forall a, In a l -> f a = false) -> filter f l = [].
Proof.
  induction l as [|a l IH]; intros Hall; simpl; [reflexivity|].
  rewrite (Hall a) by now left. apply IH. intros b Hb. apply Hall. now right.
Qed.

Lemma filter_all {A : Type} (f : A -> bool) (l : list A) :
  (forall a, In a l -> f a = true) -> filter f l = l.
Proof.
  induction l as [|a l IH]; intros Hall; simpl; [reflexivity|].
  rewrite (Hall a) by now left. f_equal. apply IH. intros b Hb. apply Hall. now right.
Qed.

(** X1: a [get] or [has] at time [now'] after [set(key, v, options)] at time
    [now] finds [v] exactly when [now'] is not past [now + (options.ttl ||
    defaultTTL)]; past it, and so at any time from [now] on for a negative
    ttl, [get] gives [null] and [has] gives [false]. *)
Theorem get_after_set_within_ttl now now' key (v : V) options s :
  let s1 := fst (set now key v options s) in
  snd (get now' key s1)
  = (if (now' <=? now + ttl_or_default options)%Z then Some v else None) /\
  snd (has now' key s1) = (now' <=? now + ttl_or_default options)%Z.
Proof.
  intros s1. subst s1. unfold get, has.
  rewrite CacheFacts.get_after_set. unfold isExpired. cbn [expiry value].
  destruct (Z.ltb_spec (now + ttl_or_default options) now');
    destruct (Z.leb_spec now' (now + ttl_or_default options)); try lia; split; reflexivity.
Qed.

(** X2: [delete(key)] returns [true] exactly when the key is in the map,
    expired or not; afterwards [get] and [has] miss the key at any time, a
    second [delete] returns [false], every other key maps to what it mapped
    to, and the counters are as before. *)
Theorem delete_removes_only_the_key key s :
  let s1 := fst (delete key s) in
  (snd (delete key s) = true <-> In key (JsMap.keys (cache s))) /\
  (forall now, snd (get now key s1) = None /\ snd (has now key s1) = false) /\
  snd (delete key s1) = false /\
  (forall k, k <> key -> JsMap.get k (cache s1) = JsMap.get k (cache s)) /\
  stats s1 = stats s.
Proof.
  intros s1. subst s1. unfold delete. cbn [fst snd cache with_cache stats].
  split; [apply JsMapFacts.has_true_iff|].
  assert (Hgone : JsMap.get key (JsMap.delete key (cache s)) = None)
    by apply JsMapFacts.get_delete_same.
  split; [|split; [|split; [|reflexivity]]].
  - intros now. unfold get, has. cbn [cache with_cache]. now rewrite Hgone.
  - unfold JsMap.has. cbn [cache with_cache]. now rewrite Hgone.
  - intros k Hne. apply JsMapFacts.get_delete_other. congruence.
Qed.

(** X3: [set(key, ...)] never changes the entry of another key: what another
    key maps to afterwards it mapped to before; and while the cache holds
    fewer than [maxSize] entries every other key keeps its entry, and the
    size grows by one for a new key and stays for a key already there. *)
Theorem set_leaves_other_keys now key (v : V) options s k :
  k <> key ->
  let s1 := fst (set now key v options s) in
  (forall e, JsMap.get k (cache s1) = Some e -> JsMap.get k (cache s) = Some e) /\
  (JsMap.size (cache s) < maxSize ->
   JsMap.get k (cache s1) = JsMap.get k (cache s) /\
   JsMap.size (cache s1)
   = if JsMap.has key (cache s) then JsMap.size (cache s) else S (JsMap.size (cache s))).
Proof.
  intros Hne s1. subst s1. rewrite CacheFacts.cache_set.
  rewrite JsMapFacts.get_set_other by congruence. split.
  - intros e. unfold before_insert.
    destruct (maxSize <=? JsMap.size (cache s))%nat; [apply get_evict_implies | auto].
  - intros Hroom. rewrite JsMapFacts.size_set. unfold before_insert.
    destruct (Nat.leb_spec maxSize (JsMap.size (cache s))); [lia|]. split; reflexivity.
Qed.

(** X4: one call makes the map grow by at most one entry, and only [set]
    makes it grow: after [get], [has], [delete], [clear] and [cleanup] the
    map is no larger than before. *)
Theorem only_set_grows_the_cache s (call : Z * Op V) :
  JsMap.size (cache (step s call)) <= S (JsMap.size (cache s)) /\
  ((forall key v options, snd call <> OpSet key v options) ->
   JsMap.size (cache (step s call)) <= JsMap.size (cache s)).
Proof.
  destruct call as [now op]. unfold step. cbn [fst snd].
  assert (Hget : forall key, JsMap.size (cache (fst (get now key s))) <= JsMap.size (cache s)).
  { intros key. unfold get. destruct (JsMap.get key (cache s)) as [e|]; [|auto].
    destruct (isExpired now e); [apply JsMapFacts.size_delete_le | auto]. }
  assert (Hhas : forall key, JsMap.size (cache (fst (has now key s))) <= JsMap.size (cache s)).
  { intros key. unfold has. destruct (JsMap.get key (cache s)) as [e|]; [|auto].
    destruct (isExpired now e); [apply JsMapFacts.size_delete_le | auto]. }
  assert (Hcleanup : JsMap.size (cache (fst (cleanup now s))) <= JsMap.size (cache s)).
  { unfold cleanup. rewrite CacheFacts.cleanup_loop_filter. apply filter_length_le. }
  destruct op.
  - split; [specialize (Hget key); lia | intros _; apply Hget].
  - split.
    + rewrite CacheFacts.cache_set, JsMapFacts.size_set.
      pose proof (size_before_insert_le s).
      destruct (JsMap.has key (cache (before_insert s))); lia.
    + intros Hno. exfalso. now apply (Hno key v options).
  - split; [specialize (Hhas key); lia | intros _; apply Hhas].
  - split; [|intros _]; cbn [delete fst cache with_cache];
      pose proof (JsMapFacts.size_delete_le key (cache s)); lia.
  - split; [|intros _]; cbn [clear fst cache]; unfold JsMap.size; simpl; lia.
  - split; [lia | intros _; exact Hcleanup].
Qed.

(** X7: after a sweep at time [now] every key left in the map is live at
    [now] ([has] and [get] find it), and a second sweep at that time or at an
    earlier one removes nothing. *)
Theorem cleanup_leaves_live_entries now s :
  JsMap.wf (cache s) ->
  let s1 := fst (cleanup now s) in
  (forall k, In k (JsMap.keys (cache s1)) ->
     snd (has now k s1) = true /\ exists v, snd (get now k s1) = Some v) /\
  (forall earlier, (earlier <= now)%Z ->
     snd (cleanup earlier s1) = 0 /\ cache (fst (cleanup earlier s1)) = cache s1).
Proof.
  intros Hwf s1.
  assert (Hwf1 : JsMap.wf (cache s1)).
  { subst s1. rewrite CacheFacts.cache_cleanup by exact Hwf. now apply CacheFacts.wf_filter. }
  assert (Hlive : forall p, In p (cache s1) -> (now < expiry (snd p))%Z).
  { subst s1. rewrite CacheFacts.cache_cleanup by exact Hwf.
    intros p Hin. apply filter_In in Hin. destruct Hin as [_ Hst].
    unfold stale in Hst. destruct (Z.leb_spec (expiry (snd p)) now); [discriminate | lia]. }
  split.
  - intros k Hin. apply JsMapFacts.has_true_iff in Hin. unfold JsMap.has in Hin.
    destruct (JsMap.get k (cache s1)) as [e|] eqn:Hg; [|discriminate].
    pose proof (Hlive (k, e) (JsMapFacts.get_In _ _ Hg)) as He. simpl in He.
    unfold has, get. rewrite Hg. unfold isExpired.
    destruct (Z.ltb_spec (expiry e) now); [lia|]. split; [reflexivity | now exists (value e)].
  - intros earlier Hle.
    assert (Hfresh : forall p, In p (cache s1) -> stale earlier p = false).
    { intros p Hin. specialize (Hlive p Hin). unfold stale.
      destruct (Z.leb_spec (expiry (snd p)) earlier); [lia | reflexivity]. }
    split.
    + now rewrite CacheFacts.count_cleanup, (filter_none _ _ Hfresh).
    + rewrite CacheFacts.cache_cleanup by exact Hwf1. apply filter_all.
      intros p Hin. now rewrite (Hfresh p Hin).
Qed.

(** X8: at the very millisecond of its expiry an entry is still returned by
    [get] and found by [has], while a sweep at that millisecond removes
    it. *)
Theorem entry_at_expiry_is_live_but_swept now key s entry :
  JsMap.wf (cache s) ->
  JsMap.get key (cache s) = Some entry ->
  expiry entry = now ->
  snd (get now key s) = Some (value entry) /\
  snd (has now key s) = true /\
  JsMap.get key (cache (fst (cleanup now s))) = None.
Proof.
  intros Hwf Hget Hexp. unfold get, has. rewrite Hget. unfold isExpired.
  rewrite Hexp, Z.ltb_irrefl. split; [reflexivity | split; [reflexivity|]].
  destruct (JsMap.get key (cache (fst (cleanup now s)))) as [e|] eqn:Hg; [|reflexivity].
  exfalso. rewrite CacheFacts.cache_cleanup in Hg by exact Hwf.
  apply JsMapFacts.get_In in Hg. apply filter_In in Hg. destruct Hg as [Hin Hst].
  apply JsMapFacts.In_get in Hin; [|exact Hwf].
  assert (e = entry) by congruence. subst e.
  unfold stale in Hst. simpl in Hst. rewrite Hexp, Z.leb_refl in Hst. discriminate.
Qed.

End Laws.

End CacheLaws.

(* ------------------------------------------------------------------ *)
(** ** The size bound and the eviction, for keys that are not empty *)

Module SizeLaws.

Import CacheService Calls Props.

Section Laws.
Context {V : Type}.
Implicit Types (s : CacheService.t V) (calls : list (Z * Op V)).

Lemma set_keys_firstn calls : forall n (P : string -> Prop),
  Forall P (set_keys calls) -> Forall P (set_keys (firstn n calls)).
Proof.
  induction calls as [|[now op] calls IH]; intros n P Hall.
  - destruct n; constructor.
  - destruct n as [|n]; [constructor|].
    destruct op; simpl in *; try (now apply IH).
    inversion Hall; subst. constructor; [assumption | now apply IH].
Qed.

(** X5: as long as no call stores under the empty string, the service holds
    at most [maxSize] entries after every call of the sequence. *)
Theorem size_bounded_after_every_call calls :
  Forall (fun key => key <> EmptyString) (set_keys calls) ->
  forall n, size (getStats (run create (firstn n calls))) <= maxSize.
Proof.
  intros Hkeys n. apply CallsFacts.size_bound_nonempty_keys.
  now apply set_keys_firstn.
Qed.

(** X6: a [set] on a full cache none of whose keys is the empty string: the
    first of the oldest entries (no earlier entry as old, no later entry
    older) is deleted, the new entry is written into the rest, all other
    entries stay in their order, and the cache does not grow. *)
Theorem set_on_full_cache_evicts_first_oldest now key (v : V) options s :
  JsMap.wf (cache s) ->
  ~ In EmptyString (JsMap.keys (cache s)) ->
  maxSize <= JsMap.size (cache s) ->
  exists pre k e post,
    first_oldest (cache s) pre k e post /\
    cache (fst (set now key v options s))
    = JsMap.set key (mkEntry v (now + ttl_or_default options) now) (pre ++ post) /\
    JsMap.size (cache (fst (set now key v options s))) <= JsMap.size (cache s).
Proof.
  intros Hwf Hkeys Hfull.
  destruct (@CallsFacts.set_when_full V now key v options s Hwf Hfull)
    as (pre & k & e & post & Hfo & Hset).
  exists pre, k, e, post. split; [exact Hfo|].
  assert (Hk : k <> EmptyString).
  { intros ->. apply Hkeys. destruct Hfo as (Hit & _). rewrite Hit.
    unfold JsMap.keys. rewrite map_app. apply in_or_app. right. now left. }
  rewrite (Hset Hk). split; [reflexivity|].
  rewrite JsMapFacts.size_set. destruct Hfo as (Hit & _). rewrite Hit.
  unfold JsMap.size. rewrite !length_app. simpl.
  destruct (JsMap.has key (pre ++ post)); lia.
Qed.

End Laws.

End SizeLaws.

(* ------------------------------------------------------------------ *)
(** ** More about the interceptor: hits, and the lookups it counts *)

Module InterceptorLaws.

Import CacheService Interceptor Props.

Implicit Types (s : CacheService.t JsValue) (req : HttpRequest)
  (next : HttpRequest -> Observable) (w : World).

Lemma stats_tap req deliveries : forall s,
  stats (fold_left (tap_callback req) deliveries s) = stats s.
Proof.
  induction deliveries as [|[t v] rest IH]; intros s; simpl; [reflexivity|].
  rewrite IH. unfold tap_callback. cbn [fst snd].
  destruct (instanceof_HttpResponse v); [apply CacheFacts.stats_set | reflexivity].
Qed.

Lemma get_live now key s entry :
  JsMap.get key (cache s) = Some entry -> (now <= expiry entry)%Z ->
  CacheService.get now key s = (hit s, Some (value entry)).
Proof.
  intros Hget Hnow. unfold CacheService.get. rewrite Hget. unfold isExpired.
  destruct (Z.ltb_spec (expiry entry) now); [lia | reflexivity].
Qed.

(** X9: a [GET] request whose key holds a live entry with a truthy value is
    answered with [of(value)]: the continuation is not invoked, the entries
    stay as they are, and one hit is counted. *)
Theorem GET_hit_answers_from_cache now req next w entry :
  method req = "GET"%string ->
  JsMap.get (urlWithParams req) (cache (cacheService w)) = Some entry ->
  (now <= expiry entry)%Z ->
  truthy (value entry) = true ->
  cachingInterceptor now req next w
  = ({| cacheService := hit (cacheService w); calls := calls w |},
     rx_of now (value entry)).
Proof.
  intros Hm Hget Hnow Htruthy. apply String.eqb_eq in Hm.
  assert (Hg := @get_live now (urlWithParams req) (cacheService w) entry Hget Hnow).
  rewrite (@InterceptorFacts.hit_path now req next w (value entry) Hm); try exact Htruthy;
    now rewrite Hg.
Qed.

(** X10: a live entry whose value is falsy ([0], the empty string, [false],
    [null]) counts as a hit of the service, and yet the interceptor goes on
    as on a miss: the continuation is invoked with the request and its
    observable is the result. *)
Theorem GET_falsy_cached_value_is_refetched now req next w entry :
  method req = "GET"%string ->
  JsMap.get (urlWithParams req) (cache (cacheService w)) = Some entry ->
  (now <= expiry entry)%Z ->
  truthy (value entry) = false ->
  let w1 := fst (cachingInterceptor now req next w) in
  calls w1 = calls w ++ [req] /\
  snd (cachingInterceptor now req next w) = next req /\
  stats_hits (stats (cacheService w1)) = S (stats_hits (stats (cacheService w))) /\
  stats_misses (stats (cacheService w1)) = stats_misses (stats (cacheService w)).
Proof.
  intros Hm Hget Hnow Hfalsy w1. subst w1. apply String.eqb_eq in Hm.
  assert (Hg := @get_live now (urlWithParams req) (cacheService w) entry Hget Hnow).
  assert (Hmiss : cached now (urlWithParams req) (cacheService w) = false).
  { unfold cached. now rewrite Hg. }
  rewrite (InterceptorFacts.miss_path now req next w Hm Hmiss), Hg.
  unfold call_next_and_tap. cbn [fst snd calls cacheService].
  rewrite stats_tap. repeat split.
Qed.

(** X11: whatever the continuation does, an intercepted [GET] request adds
    exactly one to [hits + misses], and a request with another method adds
    nothing. *)
Theorem interceptor_counts_one_lookup_per_GET now req next w :
  let w1 := fst (cachingInterceptor now req next w) in
  lookups (cacheService w1)
  = lookups (cacheService w) + (if String.eqb (method req) "GET" then 1 else 0).
Proof.
  intros w1. subst w1. unfold cachingInterceptor.
  destruct (String.eqb (method req) "GET"); cbn [negb]; [|cbn [fst cacheService]; lia].
  pose proof (CallsFacts.lookups_get now (urlWithParams req) (cacheService w)) as Hl.
  destruct (CacheService.get now (urlWithParams req) (cacheService w)) as [s [v|]];
    cbn [fst] in Hl.
  - destruct (truthy v); unfold call_next_and_tap; cbn [fst cacheService];
      unfold lookups in *; rewrite ?stats_tap; lia.
  - unfold call_next_and_tap; cbn [fst cacheService].
    unfold lookups in *. rewrite stats_tap. lia.
Qed.

End InterceptorLaws.

(* ------------------------------------------------------------------ *)
(** ** [UserService]: objects, headers, retries and fallbacks *)

Module UserLaws.

Import Interceptor Rx UserService UserProps.

(** *** Objects *)

Lemma set_same {X : Type} k (x : X) (m : JsMap.t X) :
  JsMap.get k m = Some x -> JsMap.set k x m = m.
Proof.
  induction m as [|[k' x'] m IH]; simpl; [discriminate|].
  destruct (String.eqb_spec k' k) as [->|Hne].
  - now intros [= ->].
  - intros Hget. f_equal. now apply IH.
Qed.

Lemma get_spread {X : Type} (object : JsMap.t X) k : forall over,
  JsMap.wf object ->
  JsMap.get k (spread object over)
  = match JsMap.get k object with Some x => Some x | None => JsMap.get k over end.
Proof.
  unfold spread, JsMap.wf. induction object as [|[k0 x0] object IH]; intros over Hwf.
  - reflexivity.
  - inversion Hwf as [|? ? Hnotin Hwf']; subst. cbn [fold_left fst snd].
    rewrite IH by exact Hwf'. simpl.
    destruct (String.eqb_spec k0 k) as [->|Hne].
    + apply JsMapFacts.get_None_iff in Hnotin. rewrite Hnotin.
      apply JsMapFacts.get_set_same.
    + destruct (JsMap.get k object); [reflexivity|].
      now apply JsMapFacts.get_set_other.
Qed.

Lemma spread_same {X : Type} (object : JsMap.t X) (over : JsMap.t X) :
  (forall k x, In (k, x) object -> JsMap.get k over = Some x) ->
  spread object over = over.
Proof.
  unfold spread. induction object as [|[k x] object IH]; intros Hall; [reflexivity|].
  cbn [fold_left fst snd]. rewrite (@set_same X k x over) by (apply Hall; now left).
  apply IH. intros k' x' Hin. apply Hall. now right.
Qed.


Lemma or_else_twice a fallback :
  or_else (Some (or_else a fallback)) fallback = or_else a fallback.
Proof.
  unfold or_else. destruct a as [v|].
  - destruct (truthy v) eqn:Hv; [now rewrite Hv|]. now destruct (truthy fallback).
  - now destruct (truthy fallback).
Qed.

(** The properties [transformUserResponse] writes. *)
Lemma transform_fields user :
  transformUserResponse user
  = spread (List.map (fun fd => (fst fd, or_else (JsMap.get (fst fd) user) (snd fd)))
              required_fields) user.
Proof. reflexivity. Qed.

Lemma wf_written_fields (user : User) :
  JsMap.wf (List.map (fun fd => (fst fd, or_else (JsMap.get (fst fd) user) (snd fd)))
              required_fields).
Proof.
  unfold JsMap.wf, JsMap.keys. rewrite map_map. simpl.
  repeat constructor; simpl; intuition discriminate.
Qed.

Lemma get_written_field (user : User) field fallback :
  In (field, fallback) required_fields ->
  JsMap.get field
    (List.map (fun fd => (fst fd, or_else (JsMap.get (fst fd) user) (snd fd))) required_fields)
  = Some (or_else (JsMap.get field user) fallback).
Proof.
  intros Hin. apply JsMapFacts.In_get; [apply wf_written_fields|].
  apply in_map_iff. exists (field, fallback). split; [reflexivity | exact Hin].
Qed.

Lemma required_fields_after_transform (user : User) :
  (forall field fallback, In (field, fallback) required_fields ->
     JsMap.get field (transformUserResponse user)
     = Some (or_else (JsMap.get field user) fallback)) /\
  (forall k, ~ In k (List.map fst required_fields) ->
     JsMap.get k (transformUserResponse user) = JsMap.get k user).
Proof.
  rewrite transform_fields. split.
  - intros field fallback Hin.
    rewrite get_spread by apply wf_written_fields.
    now rewrite (get_written_field user field fallback Hin).
  - intros k Hnotin. rewrite get_spread by apply wf_written_fields.
    destruct (JsMap.get k (List.map _ required_fields)) as [x|] eqn:Hg; [|reflexivity].
    exfalso. apply Hnotin. apply JsMapFacts.get_In in Hg.
    apply in_map_iff in Hg. destruct Hg as [[f d] [Heq Hin]].
    simpl in Heq. injection Heq as <- _.
    apply in_map_iff. exists (f, d). auto.
Qed.

(** X12: after [transformUserResponse] each of [id], [email], [first_name],
    [last_name] and [avatar] is there: with the user's value when that is
    truthy, and with [0] (for [id]) or the empty string otherwise; every
    other property of the user is as it was. *)
Theorem transformUserResponse_ensures_required_fields (user : User) :
  (forall field fallback, In (field, fallback) required_fields ->
     JsMap.get field (transformUserResponse user)
     = Some (or_else (JsMap.get field user) fallback)) /\
  (forall k, ~ In k (List.map fst required_fields) ->
     JsMap.get k (transformUserResponse user) = JsMap.get k user).
Proof. exact (required_fields_after_transform user). Qed.

Lemma transform_twice_or_complete (user : User) :
  transformUserResponse (transformUserResponse user) = transformUserResponse user /\
  (complete user -> transformUserResponse user = user).
Proof.
  destruct (required_fields_after_transform user) as [Hfields _].
  split.
  - rewrite (transform_fields (transformUserResponse user)).
    apply spread_same. intros k x Hin.
    apply in_map_iff in Hin. destruct Hin as [[f d] [Heq Hin]].
    simpl in Heq. injection Heq as <- <-.
    rewrite (Hfields f d Hin). now rewrite or_else_twice.
  - intros Hcomplete. rewrite transform_fields. apply spread_same. intros k x Hin.
    apply in_map_iff in Hin. destruct Hin as [[f d] [Heq Hin]].
    simpl in Heq. injection Heq as <- <-.
    destruct (Hcomplete f) as (v & Hget & Htruthy).
    { apply in_map_iff. exists (f, d). auto. }
    rewrite Hget. unfold or_else. now rewrite Htruthy.
Qed.

(** X13: [transformUserResponse] applied twice is [transformUserResponse]
    applied once, and a user whose five required fields are all truthy comes
    out as it went in, property by property and in the same order. *)
Theorem transformUserResponse_idempotent (user : User) :
  transformUserResponse (transformUserResponse user) = transformUserResponse user /\
  (complete user -> transformUserResponse user = user).
Proof. exact (transform_twice_or_complete user). Qed.

(** *** Headers *)
















(** *** Retries and fallbacks *)

Section Pipeline.
Context {Body B : Type}.
Variable server : list HttpCall -> HttpCall -> option Body + Failure.
Variable f : option Body -> B + Failure.
Variable call : HttpCall.

Lemma source_run sent :
  request_source server f call sent = (sent ++ [call], run_of (outcome server f call sent)).
Proof.
  unfold request_source, Rx.map, http_request, outcome.
  destruct (server sent call) as [body|e]; simpl; [|reflexivity].
  destruct (f body); reflexivity.
Qed.

Lemma sent_again_next sent k :
  sent_again (sent ++ [call]) call k = sent_again sent call (S k).
Proof. unfold sent_again. simpl. now rewrite <- app_assoc. Qed.

Lemma sent_again_0 sent : sent_again sent call 0 = sent.
Proof. unfold sent_again. simpl. apply app_nil_r. Qed.

Lemma retry_all_fail n : forall sent,
  (forall j, j <= n -> exists e, outcome server f call (sent_again sent call j) = inr e) ->
  exists e,
    retry_left n (request_source server f call) sent
    = (sent_again sent call (S n), {| delivered := []; ending := Failed e |}).
Proof.
  induction n as [|n IH]; intros sent Hfail.
  - destruct (Hfail 0 (le_n 0)) as [e He]. rewrite sent_again_0 in He.
    exists e. simpl. rewrite source_run, He. reflexivity.
  - destruct (Hfail 0 (Nat.le_0_l _)) as [e0 He0]. rewrite sent_again_0 in He0.
    destruct (IH (sent ++ [call])) as [e He].
    { intros j Hj. rewrite sent_again_next. apply Hfail. lia. }
    exists e. simpl. rewrite source_run, He0. cbn [run_of ending delivered].
    rewrite He, sent_again_next. reflexivity.
Qed.

Lemma retry_first_success k : forall n sent b,
  k <= n ->
  (forall j, j < k -> exists e, outcome server f call (sent_again sent call j) = inr e) ->
  outcome server f call (sent_again sent call k) = inl b ->
  retry_left n (request_source server f call) sent
  = (sent_again sent call (S k), {| delivered := [b]; ending := Completed |}).
Proof.
  induction k as [|k IH]; intros n sent b Hk Hfail Hok.
  - rewrite sent_again_0 in Hok.
    destruct n; simpl; rewrite source_run, Hok; reflexivity.
  - destruct n as [|n]; [lia|].
    destruct (Hfail 0 (Nat.lt_0_succ _)) as [e0 He0]. rewrite sent_again_0 in He0.
    simpl. rewrite source_run, He0. cbn [run_of ending delivered].
    rewrite (IH n (sent ++ [call]) b).
    + now rewrite sent_again_next.
    + lia.
    + intros j Hj. rewrite sent_again_next. apply Hfail. lia.
    + now rewrite sent_again_next.
Qed.

Lemma retry_shape n : forall sent,
  exists k, 1 <= k <= S n /\
    ((exists b, retry_left n (request_source server f call) sent
                = (sent_again sent call k, {| delivered := [b]; ending := Completed |})) \/
     (exists e, retry_left n (request_source server f call) sent
                = (sent_again sent call k, {| delivered := []; ending := Failed e |}))).
Proof.
  induction n as [|n IH]; intros sent.
  - exists 1. split; [lia|]. simpl. rewrite source_run.
    destruct (outcome server f call sent) as [b|e]; [left; exists b | right; exists e];
      reflexivity.
  - simpl. rewrite source_run.
    destruct (outcome server f call sent) as [b|e]; cbn [run_of ending delivered].
    + exists 1. split; [lia|]. left. exists b. reflexivity.
    + destruct (IH (sent ++ [call])) as (k & Hk & [[b Hb]|[e' He']]).
      * exists (S k). split; [lia|]. left. exists b. now rewrite Hb, sent_again_next.
      * exists (S k). split; [lia|]. right. exists e'. now rewrite He', sent_again_next.
Qed.

Variables (count : Z) (operation : string) (fallback : B).

Lemma pipeline_all_fail sent :
  (forall j, j <= Z.to_nat count ->
     exists e, outcome server f call (sent_again sent call j) = inr e) ->
  pipeline server f call count operation fallback sent
  = (sent_again sent call (S (Z.to_nat count)),
     {| delivered := [fallback]; ending := Completed |}).
Proof.
  intros Hfail. unfold pipeline, catchError, retry.
  destruct (retry_all_fail (Z.to_nat count) sent Hfail) as [e He]. rewrite He.
  reflexivity.
Qed.

Lemma pipeline_first_success sent k b :
  k <= Z.to_nat count ->
  (forall j, j < k -> exists e, outcome server f call (sent_again sent call j) = inr e) ->
  outcome server f call (sent_again sent call k) = inl b ->
  pipeline server f call count operation fallback sent
  = (sent_again sent call (S k), {| delivered := [b]; ending := Completed |}).
Proof.
  intros Hk Hfail Hok. unfold pipeline, catchError, retry.
  now rewrite (retry_first_success k (Z.to_nat count) sent b Hk Hfail Hok).
Qed.

Lemma pipeline_shape sent :
  exists k b, 1 <= k <= S (Z.to_nat count) /\
    pipeline server f call count operation fallback sent
    = (sent_again sent call k, {| delivered := [b]; ending := Completed |}).
Proof.
  unfold pipeline, catchError, retry.
  destruct (retry_shape (Z.to_nat count) sent) as (k & Hk & [[b Hb]|[e He]]).
  - exists k, b. split; [exact Hk|]. now rewrite Hb.
  - exists k, fallback. split; [exact Hk|]. now rewrite He.
Qed.

End Pipeline.

(** An attempt the server leaves unanswered fails, also after the mapping. *)
Lemma unanswered_fails {Body B : Type} (server : list HttpCall -> HttpCall -> option Body + Failure)
    (g : Body -> B) (call : HttpCall) (sent : list HttpCall) :
  unanswered server call sent ->
  exists e, outcome server (on_object g) call sent = inr e.
Proof.
  unfold unanswered, outcome. intros Hun.
  destruct (server sent call) as [[body|]|e].
  - now contradiction (Hun body).
  - now exists TypeError.
  - now exists e.
Qed.

Lemma getUsers_pipeline server config :
  getUsers server config
  = pipeline server (on_object transformUsersResponse)
      (get_call baseUrl (buildHeaders (config_headers config)))
      (config_retryAttempts config) "fetchUsersFromApi" [].
Proof. reflexivity. Qed.

Lemma postUser_pipeline server userData config :
  postUser server userData config
  = pipeline server (on_object (fun response => Some (transformUserResponse response)))
      (post_call baseUrl userData (buildHeaders (config_headers config)))
      (config_retryAttempts config) "postUser" None.
Proof. reflexivity. Qed.

Lemma getUserById_pipeline number_to_string server id config :
  getUserById number_to_string server id config
  = pipeline server user_of_response
      (get_call (baseUrl ++ "/" ++ number_to_string id)%string
         (buildHeaders (config_headers config)))
      (config_retryAttempts config) "fetchUserByIdFromApi" None.
Proof. reflexivity. Qed.

Lemma methods_shape config sent :
  (forall server, exists k users,
     1 <= k <= S (retries config) /\
     getUsers server config sent
     = (sent_again sent (get_call baseUrl (buildHeaders (config_headers config))) k,
        {| delivered := [users]; ending := Completed |})) /\
  (forall server userData, exists k user,
     1 <= k <= S (retries config) /\
     postUser server userData config sent
     = (sent_again sent (post_call baseUrl userData (buildHeaders (config_headers config))) k,
        {| delivered := [user]; ending := Completed |})) /\
  (forall number_to_string server id, exists k user,
     1 <= k <= S (retries config) /\
     getUserById number_to_string server id config sent
     = (sent_again sent
          (get_call (baseUrl ++ "/" ++ number_to_string id)%string
             (buildHeaders (config_headers config))) k,
        {| delivered := [user]; ending := Completed |})).
Proof.
  split; [|split].
  - intros server. rewrite getUsers_pipeline. apply pipeline_shape.
  - intros server userData. rewrite postUser_pipeline. apply pipeline_shape.
  - intros number_to_string server id. rewrite getUserById_pipeline. apply pipeline_shape.
Qed.

(** X15: whatever the server does, each of [getUsers], [postUser] and
    [getUserById] completes without an error after delivering exactly one
    value, and sends the same request at least once and at most
    [retryAttempts + 1] times. *)
Theorem every_method_completes_with_one_value config sent :
  (forall server, exists k users,
     1 <= k <= S (retries config) /\
     getUsers server config sent
     = (sent_again sent (get_call baseUrl (buildHeaders (config_headers config))) k,
        {| delivered := [users]; ending := Completed |})) /\
  (forall server userData, exists k user,
     1 <= k <= S (retries config) /\
     postUser server userData config sent
     = (sent_again sent (post_call baseUrl userData (buildHeaders (config_headers config))) k,
        {| delivered := [user]; ending := Completed |})) /\
  (forall number_to_string server id, exists k user,
     1 <= k <= S (retries config) /\
     getUserById number_to_string server id config sent
     = (sent_again sent
          (get_call (baseUrl ++ "/" ++ number_to_string id)%string
             (buildHeaders (config_headers config))) k,
        {| delivered := [user]; ending := Completed |})).
Proof. exact (methods_shape config sent). Qed.

(** X16: when the server fails every attempt, or answers it with a [null]
    body, [getUsers] sends [retryAttempts + 1] requests and delivers the
    empty list. *)
Theorem getUsers_falls_back_to_empty_list server config sent :
  let call := get_call baseUrl (buildHeaders (config_headers config)) in
  (forall j, j <= retries config -> unanswered server call (sent_again sent call j)) ->
  getUsers server config sent
  = (sent_again sent call (S (retries config)),
     {| delivered := [[]]; ending := Completed |}).
Proof.
  intros call Hun. rewrite getUsers_pipeline. apply pipeline_all_fail.
  intros j Hj. apply unanswered_fails. now apply Hun.
Qed.

(** X17: when the attempt number [k] (from 0, within the retries) is the
    first one the server answers, [getUsers] sends [k + 1] requests and
    delivers the [data] of that answer, or the empty list when the answer
    has no [data]. *)
Theorem getUsers_returns_first_answer server config sent k response :
  let call := get_call baseUrl (buildHeaders (config_headers config)) in
  k <= retries config ->
  (forall j, j < k -> unanswered server call (sent_again sent call j)) ->
  server (sent_again sent call k) call = inl (Some response) ->
  getUsers server config sent
  = (sent_again sent call (S k),
     {| delivered := [match data response with Some users => users | None => [] end];
        ending := Completed |}).
Proof.
  intros call Hk Hun Hok. rewrite getUsers_pipeline.
  apply pipeline_first_success; [exact Hk | |].
  - intros j Hj. apply unanswered_fails. now apply Hun.
  - unfold outcome. fold call. now rewrite Hok.
Qed.

(** X18: [retryAttempts: 0], unlike a ttl of [0], is taken as given: with it,
    or with a negative number, [getUsers] sends exactly one request, whatever
    the server answers. *)
Theorem retryAttempts_zero_sends_one_request server count custom sent :
  (count <= 0)%Z ->
  fst (getUsers server (Some {| retryAttempts := Some count; headers := custom |}) sent)
  = sent ++ [get_call baseUrl (buildHeaders custom)].
Proof.
  intros Hcount.
  destruct (proj1 (methods_shape
                     (Some {| retryAttempts := Some count; headers := custom |}) sent) server)
    as (k & users & Hk & Hrun).
  rewrite Hrun. unfold retries, config_retryAttempts in Hk. cbn [retryAttempts] in Hk.
  assert (k = 1) as -> by lia. reflexivity.
Qed.

(** X19: a [POST] that the server keeps failing is sent again: [postUser]
    sends the same request, payload included, [retryAttempts + 1] times
    (four times without a configuration) and delivers [null]. *)
Theorem postUser_resends_failed_post server userData config sent :
  let call := post_call baseUrl userData (buildHeaders (config_headers config)) in
  (forall j, j <= retries config -> unanswered server call (sent_again sent call j)) ->
  postUser server userData config sent
  = (sent_again sent call (S (retries config)),
     {| delivered := [None]; ending := Completed |}) /\
  retries None = 3.
Proof.
  intros call Hun. split; [|reflexivity]. rewrite postUser_pipeline.
  apply pipeline_all_fail. intros j Hj. apply unanswered_fails. now apply Hun.
Qed.

(** X20: when every attempt of [getUserById] fails or is answered without a
    user (a [null] body, or a response whose [data] is missing or [null], on
    which the transformation throws), the request for [baseUrl/id] is sent
    [retryAttempts + 1] times and [null] is delivered. A [data] that is
    there but has no properties, such as [0] or [false], does not throw: the
    user made of the five fallback values is delivered after one request. *)
Theorem getUserById_without_user_gives_null number_to_string server id config sent :
  let call := get_call (baseUrl ++ "/" ++ number_to_string id)%string
                (buildHeaders (config_headers config)) in
  ((forall j, j <= retries config ->
      forall response user,
        server (sent_again sent call j) call = inl (Some response) ->
        data response <> Some user) ->
   getUserById number_to_string server id config sent
   = (sent_again sent call (S (retries config)),
      {| delivered := [None]; ending := Completed |})) /\
  (forall response,
     server sent call = inl (Some response) ->
     data response = Some [] ->
     getUserById number_to_string server id config sent
     = (sent ++ [call],
        {| delivered := [Some required_fields]; ending := Completed |})).
Proof.
  intros call. split.
  - intros Hno. rewrite getUserById_pipeline. apply pipeline_all_fail.
    intros j Hj. specialize (Hno j Hj). unfold outcome. fold call.
    destruct (server (sent_again sent call j) call) as [[response|]|e].
    + unfold user_of_response, on_object.
      destruct (data response) as [user|] eqn:Hdata.
      * now contradiction (Hno response user eq_refl).
      * now exists TypeError.
    + now exists TypeError.
    + now exists e.
  - intros response Hok Hdata. rewrite getUserById_pipeline. fold call.
    rewrite (pipeline_first_success server user_of_response call
               (config_retryAttempts config) "fetchUserByIdFromApi" None sent 0
               (Some required_fields)).
    + reflexivity.
    + lia.
    + intros j Hj. lia.
    + rewrite sent_again_0. unfold outcome. fold call. rewrite Hok.
      unfold user_of_response, on_object. now rewrite Hdata.
Qed.

(** X21: when the server answers the first request of [getUserById] with a
    user whose required fields are all truthy, that user is delivered as it
    came, after one request to [baseUrl/id]. *)
Theorem getUserById_delivers_complete_user number_to_string server id config sent
    response user :
  let call := get_call (baseUrl ++ "/" ++ number_to_string id)%string
                (buildHeaders (config_headers config)) in
  server sent call = inl (Some response) ->
  data response = Some user ->
  complete user ->
  getUserById number_to_string server id config sent
  = (sent ++ [call], {| delivered := [Some user]; ending := Completed |}).
Proof.
  intros call Hok Hdata Hcomplete. rewrite getUserById_pipeline. fold call.
  rewrite (pipeline_first_success server user_of_response call
             (config_retryAttempts config) "fetchUserByIdFromApi" None sent 0 (Some user)).
  - reflexivity.
  - lia.
  - intros j Hj. lia.
  - rewrite sent_again_0. unfold outcome. fold call. rewrite Hok.
    unfold user_of_response, on_object. rewrite Hdata.
    now rewrite (proj2 (transform_twice_or_complete user) Hcomplete).
Qed.

End UserLaws.

(* ------------------------------------------------------------------ *)
(** ** Lookups and counters; the interceptor and the size bound *)

Module LookupLaws.

Import CacheService Interceptor Props.

(** X22: [get] counts a hit exactly when the key holds an entry that has not
    expired, and then returns the value of that entry, whatever it is (a
    stored [null] too: the [Some] of the model is the [return entry.value]
    of the source); it counts a miss exactly when the key is absent or its
    entry has expired, and then returns [null]. [has] answers [true] in the
    first case and [false] in the second, and leaves the entries [get]
    leaves. *)
Theorem get_counts_hit_iff_live_entry {V : Type} (now : Z) (key : string)
    (s : CacheService.t V) :
  (forall entry,
     JsMap.get key (cache s) = Some entry -> (now <= expiry entry)%Z ->
     snd (get now key s) = Some (value entry) /\
     stats (fst (get now key s))
     = {| stats_hits := S (stats_hits (stats s)); stats_misses := stats_misses (stats s) |} /\
     cache (fst (get now key s)) = cache s /\
     has now key s = (s, true)) /\
  ((JsMap.get key (cache s) = None \/
    exists entry, JsMap.get key (cache s) = Some entry /\ (expiry entry < now)%Z) ->
     snd (get now key s) = None /\
     stats (fst (get now key s))
     = {| stats_hits := stats_hits (stats s); stats_misses := S (stats_misses (stats s)) |} /\
     snd (has now key s) = false /\
     cache (fst (has now key s)) = cache (fst (get now key s))).
Proof.
  unfold get, has, isExpired. split.
  - intros entry -> Hlive.
    destruct (Z.ltb_spec (expiry entry) now); [lia|]. repeat split.
  - intros [-> | (entry & -> & Hexpired)]; [repeat split|].
    destruct (Z.ltb_spec (expiry entry) now); [|lia]. repeat split.
Qed.

Lemma bounded_tap req deliveries : forall s,
  urlWithParams req <> EmptyString -> bounded s ->
  bounded (fold_left (tap_callback req) deliveries s).
Proof.
  induction deliveries as [|[t v] rest IH]; intros s Hurl Hb; simpl; [exact Hb|].
  apply IH; [exact Hurl|]. unfold tap_callback. cbn [fst snd].
  destruct (instanceof_HttpResponse v); [|exact Hb].
  now apply CallsFacts.bounded_set.
Qed.

(** X23: the interceptor keeps the cache within its bound: when the cache
    holds at most [maxSize] entries, none under the empty string, and the URL
    of the request is not empty, the same is true after the interception,
    whatever the method of the request and whatever the continuation
    delivers. *)
Theorem interceptor_keeps_cache_bounded (now : Z) (req : HttpRequest)
    (next : HttpRequest -> Observable) (w : World) :
  urlWithParams req <> EmptyString ->
  bounded (cacheService w) ->
  bounded (cacheService (fst (cachingInterceptor now req next w))).
Proof.
  intros Hurl Hb. unfold cachingInterceptor.
  destruct (String.eqb (method req) "GET"); cbn [negb]; [|exact Hb].
  pose proof (@CallsFacts.bounded_get JsValue now (urlWithParams req) (cacheService w) Hb) as Hg.
  destruct (CacheService.get now (urlWithParams req) (cacheService w)) as [s [v|]];
    cbn [fst] in Hg.
  - destruct (truthy v); [exact Hg|].
    unfold call_next_and_tap. cbn [fst cacheService]. now apply bounded_tap.
  - unfold call_next_and_tap. cbn [fst cacheService]. now apply bounded_tap.
Qed.

End LookupLaws.

(* ------------------------------------------------------------------ *)
(** ** The further properties at concrete inputs *)

Module MoreScenarios.

Import CacheService Calls Interceptor Rx UserService Props UserProps Examples MoreExamples.

Lemma one_entry_wf : JsMap.wf (cache one_entry).
Proof. repeat constructor. simpl. tauto. Defined.

Lemma nonempty_insert_keys :
  Forall (fun key => key <> EmptyString) (set_keys (inserts 1 101 7)).
Proof.
  apply Forall_forall. intros key Hin.
  assert (Hall : forallb (fun k => negb (String.eqb k EmptyString))
                   (set_keys (inserts 1 101 7)) = true) by (vm_compute; reflexivity).
  rewrite forallb_forall in Hall. specialize (Hall key Hin).
  intros ->. discriminate Hall.
Defined.

Lemma full_cache_bounded : bounded full_cache.
Proof.
  unfold full_cache. apply CallsFacts.bounded_run; [|apply CallsFacts.bounded_create].
  apply Forall_forall. intros key Hin.
  assert (Hall : forallb (fun k => negb (String.eqb k EmptyString))
                   (set_keys (inserts 1 100 7)) = true) by (vm_compute; reflexivity).
  rewrite forallb_forall in Hall. specialize (Hall key Hin).
  intros ->. discriminate Hall.
Defined.

(** [set("y", 5)] leaves the entry under ["x"] alone. *)
Lemma set_leaves_other_keys_witness :
  "x"%string <> "y"%string /\
  JsMap.size (cache one_entry) < maxSize /\
  JsMap.get "x" (cache (fst (set 1 "y" 5 None one_entry))) = JsMap.get "x" (cache one_entry).
Proof.
  assert (Hne : "x"%string <> "y"%string) by discriminate.
  assert (Hroom : JsMap.size (cache one_entry) < maxSize)
    by (apply Nat.ltb_lt; reflexivity).
  split; [exact Hne|]. split; [exact Hroom|].
  exact (proj1 (proj2 (CacheLaws.set_leaves_other_keys 1%Z "y"%string 5 None one_entry
                         "x"%string Hne) Hroom)).
Defined.

(** 101 keys, none of them empty: never more than 100 entries. *)
Lemma size_bounded_witness :
  Forall (fun key => key <> EmptyString) (set_keys (inserts 1 101 7)) /\
  size (getStats (run create (firstn 101 (inserts 1 101 7)))) <= maxSize.
Proof.
  split; [exact nonempty_insert_keys|].
  exact (SizeLaws.size_bounded_after_every_call (inserts 1 101 7) nonempty_insert_keys 101).
Defined.

(** A new key stored into the full cache. *)
Lemma set_on_full_cache_witness :
  JsMap.wf (cache full_cache) /\
  ~ In EmptyString (JsMap.keys (cache full_cache)) /\
  maxSize <= JsMap.size (cache full_cache) /\
  exists pre k e post,
    first_oldest (cache full_cache) pre k e post /\
    cache (fst (set 200 "new" 8 None full_cache))
    = JsMap.set "new" (mkEntry 8 (200 + ttl_or_default None) 200) (pre ++ post) /\
    JsMap.size (cache (fst (set 200 "new" 8 None full_cache))) <= JsMap.size (cache full_cache).
Proof.
  destruct full_cache_bounded as (Hwf & Hkeys & _).
  assert (Hfull : maxSize <= JsMap.size (cache full_cache))
    by (apply Nat.leb_le; vm_compute; reflexivity).
  split; [exact Hwf|]. split; [exact Hkeys|]. split; [exact Hfull|].
  exact (SizeLaws.set_on_full_cache_evicts_first_oldest 200%Z "new"%string 8 None
           full_cache Hwf Hkeys Hfull).
Defined.

(** After the sweep at time 50, a second sweep finds nothing. *)
Lemma cleanup_leaves_live_entries_witness :
  JsMap.wf (cache three_entries) /\
  snd (cleanup 50 (fst (cleanup 50 three_entries))) = 0.
Proof.
  assert (Hwf : JsMap.wf (cache three_entries)) by apply CallsFacts.wf_reachable.
  split; [exact Hwf|].
  assert (Hle : (50 <= 50)%Z) by (intros H; discriminate H).
  exact (proj1 (proj2 (CacheLaws.cleanup_leaves_live_entries 50%Z three_entries Hwf) 50%Z Hle)).
Defined.

(** The entry of [one_entry] expires at 100: at 100 [get] returns 42, and a
    sweep at 100 removes the entry. *)
Lemma entry_at_expiry_witness :
  JsMap.get "x" (cache one_entry) = Some (mkEntry 42 100 0) /\
  snd (get 100 "x" one_entry) = Some 42 /\
  snd (has 100 "x" one_entry) = true /\
  JsMap.get "x" (cache (fst (cleanup 100 one_entry))) = None.
Proof.
  assert (Hget : JsMap.get "x" (cache one_entry) = Some (mkEntry 42 100 0)) by reflexivity.
  split; [exact Hget|].
  exact (CacheLaws.entry_at_expiry_is_live_but_swept 100%Z "x"%string one_entry
           (mkEntry 42 100 0) one_entry_wf Hget eq_refl).
Defined.

(** The cached response of [warm_world] answers the request at time 20. *)
Lemma GET_hit_witness :
  JsMap.get (urlWithParams get_users) (cache (cacheService warm_world))
  = Some (mkEntry (HttpResponseEvent users_response) 600009 9) /\
  cachingInterceptor 20 get_users failing warm_world
  = ({| cacheService := hit (cacheService warm_world); calls := calls warm_world |},
     rx_of 20 (HttpResponseEvent users_response)).
Proof.
  assert (Hget : JsMap.get (urlWithParams get_users) (cache (cacheService warm_world))
                 = Some (mkEntry (HttpResponseEvent users_response) 600009 9))
    by reflexivity.
  assert (Hnow : (20 <= 600009)%Z) by (intros H; discriminate H).
  split; [exact Hget|].
  exact (InterceptorLaws.GET_hit_answers_from_cache 20%Z get_users failing warm_world
           (mkEntry (HttpResponseEvent users_response) 600009 9) eq_refl Hget Hnow eq_refl).
Defined.

(** The number [0] cached under the key of the request: a hit is counted and
    the request is sent all the same. *)
Lemma GET_falsy_witness :
  JsMap.get (urlWithParams get_users) (cache (cacheService zero_world))
  = Some (mkEntry (JsNumber 0) 600000 0) /\
  calls (fst (cachingInterceptor 20 get_users responding zero_world)) = [get_users] /\
  stats_hits (stats (cacheService (fst (cachingInterceptor 20 get_users responding zero_world))))
  = 1.
Proof.
  assert (Hget : JsMap.get (urlWithParams get_users) (cache (cacheService zero_world))
                 = Some (mkEntry (JsNumber 0) 600000 0)) by reflexivity.
  assert (Hnow : (20 <= 600000)%Z) by (intros H; discriminate H).
  destruct (InterceptorLaws.GET_falsy_cached_value_is_refetched 20%Z get_users responding
              zero_world (mkEntry (JsNumber 0) 600000 0) eq_refl Hget Hnow eq_refl)
    as (Hcalls & _ & Hhits & _).
  split; [exact Hget|]. split; [exact Hcalls | exact Hhits].
Defined.

Lemma janet_complete : complete janet.
Proof.
  intros field Hin. simpl in Hin.
  destruct Hin as [<-|[<-|[<-|[<-|[<-|[]]]]]]; eexists; split; reflexivity.
Defined.

(** [janet] has all her fields: the transformation returns her unchanged. *)
Lemma transformUserResponse_idempotent_witness :
  complete janet /\ transformUserResponse janet = janet.
Proof.
  split; [exact janet_complete|].
  exact (proj2 (UserLaws.transformUserResponse_idempotent janet) janet_complete).
Defined.


Lemma down_unanswered {Body : Type} call sent : unanswered (@down Body) call sent.
Proof. intros body H. discriminate H. Defined.

(** A server that is down: four requests, then the empty list. *)
Lemma getUsers_fallback_witness :
  fst (getUsers down None []) = repeat (get_call baseUrl (buildHeaders None)) 4 /\
  snd (getUsers down None []) = {| delivered := [[]]; ending := Completed |}.
Proof.
  pose proof (UserLaws.getUsers_falls_back_to_empty_list down None []
                (fun j _ => down_unanswered _ _)) as H.
  rewrite H. split; reflexivity.
Defined.

(** The third request is answered: three requests, and the users. *)
Lemma getUsers_first_answer_witness :
  fst (getUsers flaky None []) = repeat (get_call baseUrl (buildHeaders None)) 3 /\
  snd (getUsers flaky None []) = {| delivered := [[janet]]; ending := Completed |}.
Proof.
  assert (Hk : 2 <= retries None) by (apply Nat.leb_le; reflexivity).
  assert (Hun : forall j, j < 2 ->
            unanswered flaky (get_call baseUrl (buildHeaders None))
              (sent_again [] (get_call baseUrl (buildHeaders None)) j)).
  { intros j Hj body H. destruct j as [|[|j]]; [discriminate H | discriminate H | lia]. }
  pose proof (UserLaws.getUsers_returns_first_answer flaky None [] 2 users_page
                Hk Hun eq_refl) as H.
  rewrite H. split; reflexivity.
Defined.

(** [retryAttempts: 0]: one request to the server that is down. *)
Lemma retryAttempts_zero_witness :
  (0 <= 0)%Z /\
  fst (getUsers down (Some {| retryAttempts := Some 0%Z; headers := None |}) [])
  = [get_call baseUrl (buildHeaders None)].
Proof.
  assert (H0 : (0 <= 0)%Z) by (intros H; discriminate H).
  split; [exact H0|].
  exact (UserLaws.retryAttempts_zero_sends_one_request down 0%Z None [] H0).
Defined.

(** A [POST] to the server that is down is sent four times. *)
Lemma postUser_resend_witness :
  fst (postUser down [("name"%string, JsString "John Doe")] None [])
  = repeat (post_call baseUrl [("name"%string, JsString "John Doe")] (buildHeaders None)) 4 /\
  snd (postUser down [("name"%string, JsString "John Doe")] None [])
  = {| delivered := [None]; ending := Completed |}.
Proof.
  destruct (UserLaws.postUser_resends_failed_post down
              [("name"%string, JsString "John Doe")] None []
              (fun j _ => down_unanswered _ _)) as [H _].
  rewrite H. split; reflexivity.
Defined.

(** Answers without [data]: four requests for user 7, then [null]. An
    answer whose [data] is [0]: one request, and the user of the fallback
    values. *)
Lemma getUserById_null_witness :
  snd (getUserById digit_to_string no_data 7 None [])
  = {| delivered := [None]; ending := Completed |} /\
  List.length (fst (getUserById digit_to_string no_data 7 None [])) = 4 /\
  getUserById digit_to_string zero_data 7 None []
  = ([get_call (baseUrl ++ "/" ++ digit_to_string 7)%string (buildHeaders None)],
     {| delivered := [Some [("id"%string, JsNumber 0);
                            ("email"%string, JsString EmptyString);
                            ("first_name"%string, JsString EmptyString);
                            ("last_name"%string, JsString EmptyString);
                            ("avatar"%string, JsString EmptyString)]];
        ending := Completed |}).
Proof.
  assert (Hno : forall j, j <= retries None ->
            forall response user,
              no_data (sent_again [] (get_call (baseUrl ++ "/" ++ digit_to_string 7)%string
                                        (buildHeaders None)) j)
                (get_call (baseUrl ++ "/" ++ digit_to_string 7)%string (buildHeaders None))
              = inl (Some response) ->
              data response <> Some user).
  { intros j _ response user H. injection H as <-. discriminate. }
  pose proof (proj1 (UserLaws.getUserById_without_user_gives_null digit_to_string no_data 7%Z
                       None []) Hno) as H.
  rewrite H. split; [reflexivity|]. split; [reflexivity|].
  exact (proj2 (UserLaws.getUserById_without_user_gives_null digit_to_string zero_data 7%Z
                  None []) _ eq_refl eq_refl).
Defined.

(** The server answers with [janet]: she is delivered after one request. *)
Lemma getUserById_complete_witness :
  complete janet /\
  getUserById digit_to_string answers_janet 1 None []
  = ([get_call (baseUrl ++ "/" ++ digit_to_string 1)%string (buildHeaders None)],
     {| delivered := [Some janet]; ending := Completed |}).
Proof.
  split; [exact janet_complete|].
  exact (UserLaws.getUserById_delivers_complete_user digit_to_string answers_janet 1%Z None []
           _ janet eq_refl eq_refl janet_complete).
Defined.

(** The interception of [get_users] on a new service leaves one entry. *)
Lemma interceptor_bounded_witness :
  urlWithParams get_users <> EmptyString /\
  bounded (cacheService new_world) /\
  bounded (cacheService warm_world).
Proof.
  assert (Hurl : urlWithParams get_users <> EmptyString) by discriminate.
  assert (Hb : bounded (cacheService new_world)) by apply CallsFacts.bounded_create.
  split; [exact Hurl|]. split; [exact Hb|].
  exact (LookupLaws.interceptor_keeps_cache_bounded 0%Z get_users responding new_world Hurl Hb).
Defined.

End MoreScenarios.
